(** * The event-lifecycle / price-capture engine of the BTC/USD streaming platform

    A shallow embedding of [StreamingPlatform] (streaming-platform.ts) and of
    the types it exchanges with its collaborators (types.ts).  The class is a
    single-threaded, run-to-completion event handler: every handler is
    embedded as a function from platform state to platform state, the mutable
    [Map]s are finite maps, the interval timer of the countdown is a set of
    live handles, and everything a handler makes visible to the page or asks
    of a collaborator is appended to a trace of effects.

    A handler is taken to run at one instant [now]: every clock read it makes
    (inside [getEvents()] and in [updateCountdown]) returns the same value.
    What follows an [await] runs as a handler of its own, at a later
    instant. *)

From stdpp Require Import base gmap sets list strings pretty.
From Stdlib Require Import ZArith Lia Ascii.

Local Open Scope Z_scope.

(** ** Types exchanged with the collaborators (types.ts) *)

Inductive DataSource := chainlink.

Record ConnectionStatus := mkConnectionStatus {
  connected : bool;
  source : option DataSource;
  lastUpdate : option Z;
  error : option string
}.

Record Payload := mkPayload {
  symbol : string;
  p_timestamp : Z;
  value : Z
}.

Record PriceUpdate := mkPriceUpdate {
  topic : string;
  type : string;
  u_timestamp : Z;
  payload : Payload
}.

(** An entry of [priceHistory]: [{ timestamp, value }].  Prices are stored and
    compared but never computed on by the capture logic; they are carried as
    integers (the feed value in its smallest unit). *)
Record PricePoint := mkPricePoint {
  timestamp : Z;
  pp_value : Z
}.

(** ** The event catalog (event-manager.ts) *)

Inductive EventStatus := Upcoming | Active | Expired.

#[global] Instance EventStatus_eq_dec : EqDecision EventStatus.
Proof. solve_decision. Defined.

(** Modelled from the spec: event-manager.ts is not part of the sources at
    hand.  An event descriptor is immutable once fetched and carries the slug
    (its stable key), the title and the start and end instants in epoch
    milliseconds. *)
Record EventDescriptor := mkEventDescriptor {
  d_slug : string;
  d_title : string;
  startTime : Z;
  endTime : Z
}.

(** Modelled from the spec: the status derivation of the missing
    event-manager.ts: [now < startTime] is upcoming, [startTime <= now <
    endTime] is active, [now >= endTime] is expired. *)
Definition deriveStatus (now : Z) (d : EventDescriptor) : EventStatus :=
  if now <? startTime d then Upcoming
  else if now <? endTime d then Active
  else Expired.

(** What [getEvents()] hands to the platform: the fields of [EventDisplayData]
    that the platform's logic reads ([slug], [title], [status], [endDate]). *)
Record EventDisplayData := mkEventDisplayData {
  slug : string;
  title : string;
  status : EventStatus;
  endDate : Z
}.

(** Modelled from the spec: [EventManager.getEvents()] of the missing
    event-manager.ts; statuses are re-derived against the clock on every
    access, never cached. *)
Definition getEvents (now : Z) (catalog : list EventDescriptor)
  : list EventDisplayData :=
  map (fun d => mkEventDisplayData (d_slug d) (d_title d)
                  (deriveStatus now d) (endTime d)) catalog.

Definition isActive (e : EventDisplayData) : bool :=
  bool_decide (status e = Active).

Definition isExpired (e : EventDisplayData) : bool :=
  bool_decide (status e = Expired).

(** [Array.prototype.findIndex]: the first index whose element satisfies the
    predicate, [-1] when there is none. *)
Fixpoint findIndex {A} (p : A -> bool) (l : list A) : Z :=
  match l with
  | [] => -1
  | x :: r =>
      if p x then 0
      else let i := findIndex p r in if i <? 0 then -1 else i + 1
  end.

(** [arr[i]] for a number [i]: [undefined] outside the array. *)
Definition arrayGet {A} (l : list A) (i : Z) : option A :=
  if i <? 0 then None else l !! Z.to_nat i.

(** Modelled from the spec: [EventManager.getCurrentEventIndex()], the
    position of the active event, [-1] when none is active. *)
Definition getCurrentEventIndex (now : Z) (catalog : list EventDescriptor) : Z :=
  findIndex isActive (getEvents now catalog).

(** The length of a slot: fifteen minutes, in milliseconds. *)
Definition slotMs : Z := 900000.

(** Contiguous, non-overlapping fifteen-minute slots: every event lasts
    [slotMs] and starts when its predecessor ends. *)
Fixpoint contiguousSlots (l : list EventDescriptor) : bool :=
  match l with
  | [] => true
  | d :: r =>
      (endTime d =? startTime d + slotMs)
      && match r with
         | [] => true
         | d' :: _ => startTime d' =? endTime d
         end
      && contiguousSlots r
  end.

Definition statuses (now : Z) (l : list EventDescriptor) : list EventStatus :=
  map (deriveStatus now) l.

Definition countActive (now : Z) (l : list EventDescriptor) : nat :=
  length (filter (fun st => st = Active) (statuses now l)).

(** ** Countdown arithmetic and formatting *)

(** [Math.max(0, Math.floor((endDate.getTime() - now.getTime()) / 1000))] *)
Definition timeLeft (endMs now : Z) : Z := Z.max 0 ((endMs - now) / 1000).

(** [String.prototype.padStart(n, '0')] *)
Definition padStart (n : nat) (s : string) : string :=
  String.concat "" (replicate (n - String.length s)%nat "0"%string) +:+ s.

(** [formatCountdown(seconds)]; [%] is the remainder of JavaScript (sign of
    the dividend), [Math.floor] of a quotient is [Z.div]. *)
Definition formatCountdown (seconds : Z) : string :=
  if seconds <=? 0 then "00:00:00"%string
  else
    let hours := seconds / 3600 in
    let minutes := (Z.rem seconds 3600) / 60 in
    let secs := Z.rem seconds 60 in
    padStart 2 (pretty hours) +:+ ":" +:+ padStart 2 (pretty minutes)
      +:+ ":" +:+ padStart 2 (pretty secs).

(** ** Platform state *)

(** What the active-event panel shows as price to beat: the stored capture,
    the current price marked as such, or the loading placeholder. *)
Inductive PriceToBeatDisplay :=
  | ShowCaptured (v : Z)
  | ShowCurrent (v : Z)
  | ShowLoading.

(** What a handler makes visible outside the object, in program order. *)
Inductive Effect :=
  | SetPriceToBeat (k : string) (v : Z)    (* eventPriceToBeat.set(k, v) *)
  | SetLastPrice (k : string) (v : Z)      (* eventLastPrice.set(k, v) *)
  | CallRenderActiveEvent                  (* this.renderActiveEvent() *)
  | CallRenderEventsTable                  (* this.renderEventsTable() *)
  | WriteActivePanel (shown : option (string * PriceToBeatDisplay))
                                           (* activeEventContainer.innerHTML *)
  | WriteEventsTable (rows : nat)          (* tableBody.innerHTML *)
  | WriteCountdown (text : string)         (* countdownElement.textContent *)
  | SetInterval (h : nat)                  (* window.setInterval *)
  | ClearInterval (h : nat)                (* clearInterval *)
  | CallLoadEvents                         (* this.loadEvents() *)
  | UpdatePriceDisplay                     (* this.updatePriceDisplay() *)
  | UpdateUI                               (* this.updateUI() *)
  | WsConnect                              (* this.wsClient.connect() *)
  | WsDisconnect.                          (* this.wsClient.disconnect() *)

#[global] Instance PriceToBeatDisplay_eq_dec : EqDecision PriceToBeatDisplay.
Proof. solve_decision. Defined.

#[global] Instance Effect_eq_dec : EqDecision Effect.
Proof. solve_decision. Defined.

(** The private fields of [StreamingPlatform], followed by the state of its
    surroundings that its handlers read or change: the event list held by the
    event manager, the interval timers started by [startCountdown] that are
    still live in the window, the handle the window hands out next, the three
    page elements the handlers look up ([#active-event-display],
    [#events-table-body], [#event-countdown] with its text), and the trace. *)
Record Platform := mkPlatform {
  currentPrice : option Z;
  priceHistory : list PricePoint;
  currentStatus : ConnectionStatus;
  countdownInterval : option nat;
  eventPriceToBeat : gmap string Z;
  eventLastPrice : gmap string Z;
  catalog : list EventDescriptor;
  countdownTimers : gset nat;
  nextHandle : nat;
  panelPresent : bool;
  tablePresent : bool;
  countdownText : option string;
  trace : list Effect
}.

Definition maxHistorySize : nat := 100.

Definition disconnectedStatus : ConnectionStatus :=
  mkConnectionStatus false None None None.

(** The object as its constructor leaves it, on a page with the given
    elements. *)
Definition initialPlatform (panel table : bool) (countdown : option string)
  : Platform :=
  mkPlatform None [] disconnectedStatus None ∅ ∅ [] ∅ 0%nat
    panel table countdown [].

Definition emit (e : Effect) (s : Platform) : Platform :=
  mkPlatform (currentPrice s) (priceHistory s) (currentStatus s)
    (countdownInterval s) (eventPriceToBeat s) (eventLastPrice s) (catalog s)
    (countdownTimers s) (nextHandle s) (panelPresent s) (tablePresent s)
    (countdownText s) (trace s ++ [e]).

Definition setPrice (p : Z) (h : list PricePoint) (s : Platform) : Platform :=
  mkPlatform (Some p) h (currentStatus s)
    (countdownInterval s) (eventPriceToBeat s) (eventLastPrice s) (catalog s)
    (countdownTimers s) (nextHandle s) (panelPresent s) (tablePresent s)
    (countdownText s) (trace s).

Definition setStatus (st : ConnectionStatus) (s : Platform) : Platform :=
  mkPlatform (currentPrice s) (priceHistory s) st
    (countdownInterval s) (eventPriceToBeat s) (eventLastPrice s) (catalog s)
    (countdownTimers s) (nextHandle s) (panelPresent s) (tablePresent s)
    (countdownText s) (trace s).

(** Modelled from the spec: a completed refresh replaces the working event
    list of the event manager (event-manager.ts is outside the sources at
    hand); a failed one leaves it as it is. *)
Definition setCatalog (l : list EventDescriptor) (s : Platform) : Platform :=
  mkPlatform (currentPrice s) (priceHistory s) (currentStatus s)
    (countdownInterval s) (eventPriceToBeat s) (eventLastPrice s) l
    (countdownTimers s) (nextHandle s) (panelPresent s) (tablePresent s)
    (countdownText s) (trace s).

(** [this.eventPriceToBeat.set(k, v)] *)
Definition setPriceToBeat (k : string) (v : Z) (s : Platform) : Platform :=
  emit (SetPriceToBeat k v)
    (mkPlatform (currentPrice s) (priceHistory s) (currentStatus s)
       (countdownInterval s) (<[k:=v]> (eventPriceToBeat s)) (eventLastPrice s)
       (catalog s) (countdownTimers s) (nextHandle s) (panelPresent s)
       (tablePresent s) (countdownText s) (trace s)).

(** [this.eventLastPrice.set(k, v)] *)
Definition setLastPrice (k : string) (v : Z) (s : Platform) : Platform :=
  emit (SetLastPrice k v)
    (mkPlatform (currentPrice s) (priceHistory s) (currentStatus s)
       (countdownInterval s) (eventPriceToBeat s) (<[k:=v]> (eventLastPrice s))
       (catalog s) (countdownTimers s) (nextHandle s) (panelPresent s)
       (tablePresent s) (countdownText s) (trace s)).

(** [clearInterval(h); this.countdownInterval = null] *)
Definition clearCountdownInterval (h : nat) (s : Platform) : Platform :=
  emit (ClearInterval h)
    (mkPlatform (currentPrice s) (priceHistory s) (currentStatus s)
       None (eventPriceToBeat s) (eventLastPrice s)
       (catalog s) (countdownTimers s ∖ {[h]}) (nextHandle s) (panelPresent s)
       (tablePresent s) (countdownText s) (trace s)).

(** [this.countdownInterval = window.setInterval(...)]: the window hands out
    its next handle and the timer is live from then on. *)
Definition installCountdownInterval (s : Platform) : Platform :=
  let h := nextHandle s in
  emit (SetInterval h)
    (mkPlatform (currentPrice s) (priceHistory s) (currentStatus s)
       (Some h) (eventPriceToBeat s) (eventLastPrice s)
       (catalog s) (countdownTimers s ∪ {[h]}) (S h) (panelPresent s)
       (tablePresent s) (countdownText s) (trace s)).

(** Assigning the text of [#event-countdown], or replacing the content of
    the panel that contains it ([None]: the new content has no such
    element). *)
Definition setCountdownText (t : option string) (s : Platform) : Platform :=
  mkPlatform (currentPrice s) (priceHistory s) (currentStatus s)
    (countdownInterval s) (eventPriceToBeat s) (eventLastPrice s) (catalog s)
    (countdownTimers s) (nextHandle s) (panelPresent s) (tablePresent s)
    t (trace s).

Definition has (m : gmap string Z) (k : string) : bool :=
  bool_decide (is_Some (m !! k)).

(** ** The handlers of [StreamingPlatform] *)

(** [stopCountdown()] *)
Definition stopCountdown (s : Platform) : Platform :=
  match countdownInterval s with
  | Some h => clearCountdownInterval h s
  | None => s
  end.

(** [loadEvents()] up to its first suspension: the refresh is requested from
    the event manager; what follows the [await] runs as a handler of its own
    ([loadEventsResolved], [loadEventsRejected]). *)
Definition loadEvents (s : Platform) : Platform := emit CallLoadEvents s.

(** [updateCountdown()]: without an active event or without the
    [#event-countdown] element the countdown stops; otherwise the remaining
    time is shown and, when it is zero, the expiry is handled. *)
Definition updateCountdown (now : Z) (s : Platform) : Platform :=
  let events := getEvents now (catalog s) in
  match find isActive events, countdownText s with
  | Some activeEvent, Some _ =>
      let tl := timeLeft (endDate activeEvent) now in
      let s1 :=
        emit (WriteCountdown (formatCountdown tl))
          (setCountdownText (Some (formatCountdown tl)) s) in
      if tl =? 0 then
        let s2 :=
          match currentPrice s1 with
          | Some p =>
              let events := getEvents now (catalog s1) in
              match find isActive events with
              | Some _ =>
                  let activeIndex := findIndex isActive events in
                  match arrayGet events (activeIndex + 1) with
                  | Some nextEvent =>
                      if has (eventLastPrice s1) (slug nextEvent) then s1
                      else setLastPrice (slug nextEvent) p s1
                  | None => s1
                  end
              | None => s1
              end
          | None => s1
          end in
        loadEvents (stopCountdown s2)
      else s1
  | _, _ => stopCountdown s
  end.

(** [startCountdown()]: stop, install the interval, update immediately. *)
Definition startCountdown (now : Z) (s : Platform) : Platform :=
  updateCountdown now (installCountdownInterval (stopCountdown s)).

(** [renderActiveEvent()].  Writing the panel replaces its content: the
    empty panel has no [#event-countdown], the panel of an active event has
    one reading [--:--:--]. *)
Definition renderActiveEvent (now : Z) (s0 : Platform) : Platform :=
  let s := emit CallRenderActiveEvent s0 in
  let events := getEvents now (catalog s) in
  if negb (panelPresent s) then s
  else
    match find isActive events with
    | None =>
        emit (WriteActivePanel None) (setCountdownText None (stopCountdown s))
    | Some activeEvent =>
        let priceToBeat := eventPriceToBeat s !! slug activeEvent in
        let priceToBeatDisplay :=
          match priceToBeat with
          | Some v => ShowCaptured v
          | None =>
              match currentPrice s with
              | Some c => ShowCurrent c
              | None => ShowLoading
              end
          end in
        let s1 :=
          match priceToBeat, currentPrice s with
          | None, Some c => setPriceToBeat (slug activeEvent) c s
          | _, _ => s
          end in
        let s2 :=
          emit (WriteActivePanel (Some (slug activeEvent, priceToBeatDisplay)))
            (setCountdownText (Some "--:--:--"%string) s1) in
        startCountdown now s2
    end.

(** [capturePriceForActiveEvent()] *)
Definition capturePriceForActiveEvent (now : Z) (s : Platform) : Platform :=
  match currentPrice s with
  | None => s
  | Some p =>
      let events := getEvents now (catalog s) in
      match find isActive events with
      | Some activeEvent =>
          if has (eventPriceToBeat s) (slug activeEvent) then s
          else renderActiveEvent now (setPriceToBeat (slug activeEvent) p s)
      | None => s
      end
  end.

(** [renderEventsTable()]; [currentIndex] only picks the style of a row and
    the rows themselves are presentation, so the write is recorded by its
    number of events. *)
Definition renderEventsTable (now : Z) (s0 : Platform) : Platform :=
  let s := emit CallRenderEventsTable s0 in
  let events := getEvents now (catalog s) in
  if negb (tablePresent s) then s
  else
    let s1 := capturePriceForActiveEvent now s in
    let s2 := renderActiveEvent now s1 in
    emit (WriteEventsTable (length events)) s2.

(** [Array.prototype.forEach] with the element and its index, threading the
    state the callback mutates. *)
Fixpoint forEachFrom {A St : Type} (f : A -> nat -> St -> St) (i : nat)
    (l : list A) (s : St) : St :=
  match l with
  | [] => s
  | x :: r => forEachFrom f (S i) r (f x i s)
  end.

Definition forEach {A St : Type} (f : A -> nat -> St -> St) (l : list A)
    (s : St) : St := forEachFrom f 0%nat l s.

(** The body of the [forEach] of [capturePriceForExpiredEvent].  The price is
    read from the object when the entry is written; it is never reset to
    [null], so the last branch is not reached (lemma
    [renderEventsTable_extends]). *)
Definition captureExpiredStep (now : Z) (events : list EventDisplayData)
    (event : EventDisplayData) (index : nat) (s : Platform) : Platform :=
  match index with
  | O => s
  | S j =>
      match events !! j with
      | Some previousEvent =>
          if isExpired previousEvent
             && negb (has (eventLastPrice s) (slug event))
          then
            match currentPrice s with
            | Some p => renderEventsTable now (setLastPrice (slug event) p s)
            | None => s
            end
          else s
      | None => s
      end
  end.

(** [capturePriceForExpiredEvent()] *)
Definition capturePriceForExpiredEvent (now : Z) (s : Platform) : Platform :=
  match currentPrice s with
  | None => s
  | Some _ =>
      let events := getEvents now (catalog s) in
      forEach (captureExpiredStep now events) events s
  end.

(** The body of the [forEach] of [updateLastPrices]: the same rule, without
    the re-render. *)
Definition updateLastStep (events : list EventDisplayData)
    (event : EventDisplayData) (index : nat) (s : Platform) : Platform :=
  match index with
  | O => s
  | S j =>
      match events !! j with
      | Some previousEvent =>
          if isExpired previousEvent
             && negb (has (eventLastPrice s) (slug event))
          then
            match currentPrice s with
            | Some p => setLastPrice (slug event) p s
            | None => s
            end
          else s
      | None => s
      end
  end.

(** [updateLastPrices()] *)
Definition updateLastPrices (now : Z) (s : Platform) : Platform :=
  match currentPrice s with
  | None => s
  | Some _ =>
      let events := getEvents now (catalog s) in
      forEach (updateLastStep events) events s
  end.

(** [priceHistory.push(...)] followed by the [shift()] that keeps at most
    [maxHistorySize] entries. *)
Definition pushHistory (pt : PricePoint) (h : list PricePoint)
  : list PricePoint :=
  let h' := h ++ [pt] in
  if (maxHistorySize <? length h')%nat then tail h' else h'.

(** [handlePriceUpdate(update)] *)
Definition handlePriceUpdate (now : Z) (update : PriceUpdate) (s : Platform)
  : Platform :=
  let v := value (payload update) in
  let s1 :=
    setPrice v
      (pushHistory (mkPricePoint (p_timestamp (payload update)) v)
         (priceHistory s)) s in
  let s2 := capturePriceForActiveEvent now s1 in
  let s3 := capturePriceForExpiredEvent now s2 in
  emit UpdatePriceDisplay s3.

(** [handleStatusChange(status)] *)
Definition handleStatusChange (st : ConnectionStatus) (s : Platform)
  : Platform := emit UpdateUI (setStatus st s).

(** What the socket client reports back through the status callback while
    [connect()] or [disconnect()] runs, if anything (websocket-client.ts is
    outside the sources at hand; the platform is reached from it only through
    the two callbacks it registers). *)
Definition clientCallback (cb : option ConnectionStatus) (s : Platform)
  : Platform :=
  match cb with
  | Some st => handleStatusChange st s
  | None => s
  end.

(** The click listener of the connect button. *)
Definition onConnectClick (cb : option ConnectionStatus) (s : Platform)
  : Platform := clientCallback cb (emit WsConnect s).

(** The click listener of the disconnect button. *)
Definition onDisconnectClick (cb : option ConnectionStatus) (s : Platform)
  : Platform :=
  emit UpdateUI
    (setStatus disconnectedStatus (clientCallback cb (emit WsDisconnect s))).

(** [loadEvents()] after [await this.eventManager.loadEvents(10)] fulfilled;
    the event manager holds the freshly fetched list. *)
Definition loadEventsResolved (now : Z) (fetched : list EventDescriptor)
    (s : Platform) : Platform :=
  renderEventsTable now (updateLastPrices now (setCatalog fetched s)).

(** [loadEvents()] after the [await] rejected: the [catch] branch, with
    [timestamps] the length of [getNext15MinIntervals(10)] (event-utils.ts is
    outside the sources at hand).  The event manager keeps its list. *)
Definition loadEventsRejected (now : Z) (timestamps : nat) (s : Platform)
  : Platform :=
  if (0 <? timestamps)%nat
  then renderEventsTable now (updateLastPrices now s)
  else s.

(** The callback registered with [setOnEventsUpdated]. *)
Definition onEventsUpdated (now : Z) (fetched : list EventDescriptor)
    (s : Platform) : Platform :=
  renderEventsTable now (setCatalog fetched s).

(** ** The event loop *)

(** The external signals the platform reacts to; each handler runs to
    completion before the next signal is taken. *)
Inductive Signal :=
  | PriceTick (update : PriceUpdate)
  | StatusNotification (st : ConnectionStatus)
  | ConnectClick (cb : option ConnectionStatus)
  | DisconnectClick (cb : option ConnectionStatus)
  | CountdownFire (h : nat)
  | RefreshResolved (fetched : list EventDescriptor)
  | RefreshRejected (timestamps : nat)
  | EventsUpdated (fetched : list EventDescriptor).

(** One signal handled at the instant [now].  A cleared interval does not
    fire. *)
Definition step (now : Z) (sig : Signal) (s : Platform) : Platform :=
  match sig with
  | PriceTick update => handlePriceUpdate now update s
  | StatusNotification st => handleStatusChange st s
  | ConnectClick cb => onConnectClick cb s
  | DisconnectClick cb => onDisconnectClick cb s
  | CountdownFire h =>
      if bool_decide (h ∈ countdownTimers s) then updateCountdown now s else s
  | RefreshResolved fetched => loadEventsResolved now fetched s
  | RefreshRejected timestamps => loadEventsRejected now timestamps s
  | EventsUpdated fetched => onEventsUpdated now fetched s
  end.

Fixpoint run (sigs : list (Z * Signal)) (s : Platform) : Platform :=
  match sigs with
  | [] => s
  | (now, sig) :: r => run r (step now sig s)
  end.

(** ** Predicates of the verification *)

(** [extends s s']: [s'] differs from [s] by captures only.  The latest price
    and the history are the same, each capture map of [s] is contained in the
    one of [s'], and every entry that is new in [s'] holds the latest price. *)
Record extends (s s' : Platform) : Prop := mkExtends {
  ext_price : currentPrice s' = currentPrice s;
  ext_history : priceHistory s' = priceHistory s;
  ext_toBeat : eventPriceToBeat s ⊆ eventPriceToBeat s';
  ext_last : eventLastPrice s ⊆ eventLastPrice s';
  ext_toBeat_new : forall k w,
    eventPriceToBeat s' !! k = Some w ->
    eventPriceToBeat s !! k = Some w \/ currentPrice s = Some w;
  ext_last_new : forall k w,
    eventLastPrice s' !! k = Some w ->
    eventLastPrice s !! k = Some w \/ currentPrice s = Some w
}.

(** [grows s s']: no entry of either capture map was removed or changed. *)
Definition grows (s s' : Platform) : Prop :=
  eventPriceToBeat s ⊆ eventPriceToBeat s'
  /\ eventLastPrice s ⊆ eventLastPrice s'.

(** The countdown owns its timers: the only live interval, if any, is the one
    whose handle the object remembers. *)
Definition timersOwned (s : Platform) : Prop :=
  countdownTimers s =
    match countdownInterval s with
    | Some h => {[h]}
    | None => ∅
    end.

(** The latest price is the value of the most recent history entry. *)
Definition priceInv (s : Platform) : Prop :=
  match last (priceHistory s) with
  | Some pt => currentPrice s = Some (pp_value pt)
  | None => True
  end.

Definition isCapture (e : Effect) : bool :=
  match e with
  | SetPriceToBeat _ _ | SetLastPrice _ _ => true
  | _ => false
  end.

Definition isTick (sig : Signal) : bool :=
  match sig with
  | PriceTick _ => true
  | _ => false
  end.







(** The capture maps a trace accounts for. *)
Definition replayLast (t : list Effect) : gmap string Z :=
  fold_left (fun m e => match e with
                        | SetLastPrice k v => <[k:=v]> m
                        | _ => m
                        end) t ∅.

Definition replayToBeat (t : list Effect) : gmap string Z :=
  fold_left (fun m e => match e with
                        | SetPriceToBeat k v => <[k:=v]> m
                        | _ => m
                        end) t ∅.

Definition recorded (s : Platform) : Prop :=
  replayLast (trace s) = eventLastPrice s
  /\ replayToBeat (trace s) = eventPriceToBeat s.

(** The number of catalog refreshes the countdown has forced. *)
Definition forcedRefreshes (t : list Effect) : nat :=
  length (filter (fun e => e = CallLoadEvents) t).



(** ** A concrete scenario: three slots, a feed, a page *)

Definition slotA : EventDescriptor := mkEventDescriptor "btc-a" "A" 0 900000.
Definition slotB : EventDescriptor :=
  mkEventDescriptor "btc-b" "B" 900000 1800000.
Definition slotC : EventDescriptor :=
  mkEventDescriptor "btc-c" "C" 1800000 2700000.

Definition tickOf (t v : Z) : PriceUpdate :=
  mkPriceUpdate "crypto_prices_chainlink" "update" t
    (mkPayload "btc/usd" t v).

(** The page as [render()] builds it: panel and table present, no countdown
    element yet. *)
Definition freshPage : Platform := initialPlatform true true None.

(** The catalog arrives one second into slot A, a first price a second
    later. *)
Definition running : Platform :=
  run [(1000, EventsUpdated [slotA; slotB; slotC]);
       (2000, PriceTick (tickOf 2000 6500000))] freshPage.

(** Renders that restart the countdown, then the current timer fires. *)
Definition restarts : list (Z * Signal) :=
  [(1000, EventsUpdated [slotA; slotB; slotC]);
   (2000, PriceTick (tickOf 2000 6500000));
   (3000, EventsUpdated [slotA; slotB; slotC]);
   (4000, CountdownFire 2)].

(** ** The price display *)

(** The class [updatePriceDisplay] gives to [#price-change]. *)
Inductive ChangeClass := positive | negative.

(** What [updatePriceDisplay()] writes when the three elements it looks up
    exist, as a function of the object's state; [None] stands for an element
    that is left as it was.  The price is shown when one is known, the
    timestamp of the most recent history entry when there is one, and the
    class of the change between the two most recent entries when there are
    two.  The texts themselves are number formatting and are left out. *)
Record PriceDisplay := mkPriceDisplay {
  shownPrice : option Z;
  shownTimestamp : option Z;
  changeClass : option ChangeClass
}.

Definition priceDisplay (s : Platform) : PriceDisplay :=
  let h := priceHistory s in
  mkPriceDisplay
    (currentPrice s)
    (if (0 <? length h)%nat
     then timestamp <$> h !! (length h - 1)%nat
     else None)
    (if (2 <=? length h)%nat
     then
       match h !! (length h - 1)%nat, h !! (length h - 2)%nat with
       | Some current, Some previous =>
           let change := pp_value current - pp_value previous in
           Some (if 0 <=? change then positive else negative)
       | _, _ => None
       end
     else None).

(** The price point [handlePriceUpdate] pushes for an update. *)
Definition pointOf (u : PriceUpdate) : PricePoint :=
  mkPricePoint (p_timestamp (payload u)) (value (payload u)).

(** The values of the price ticks among a list of signals, in order. *)
Definition deliveredPrices (sigs : list (Z * Signal)) : list Z :=
  omap (fun x => match x.2 with
                 | PriceTick u => Some (value (payload u))
                 | _ => None
                 end) sigs.

(** ** What the panel has shown *)

(** The price a panel write hands to [formatPrice], if any: the stored
    capture, or the current price when none is stored; nothing when the panel
    reads [Loading...]. *)
Definition displayedValue (d : PriceToBeatDisplay) : option Z :=
  match d with
  | ShowCaptured v | ShowCurrent v => Some v
  | ShowLoading => None
  end.

(** [priceToBeatDisplay] of [renderActiveEvent], the text put into the panel,
    for a given [formatPrice] (the currency formatter of the page, which
    rounds to two fraction digits): the formatted stored capture, the
    formatted current price followed by [ (current)], or [Loading...]. *)
Definition priceToBeatText (formatPrice : Z -> string)
    (d : PriceToBeatDisplay) : string :=
  match d with
  | ShowCaptured v => formatPrice v
  | ShowCurrent c => formatPrice c +:+ " (current)"
  | ShowLoading => "Loading..."%string
  end.

(** The active-event panels written so far: slug and price-to-beat display. *)
Definition shownList (t : list Effect) : list (string * PriceToBeatDisplay) :=
  omap (fun e => match e with
                 | WriteActivePanel (Some x) => Some x
                 | _ => None
                 end) t.

(** Every price a panel write has handed to the formatter as the price to
    beat of a slug is the value stored for that slug. *)
Definition panelHonest (s : Platform) : Prop :=
  Forall (fun x => match displayedValue x.2 with
                   | Some v => eventPriceToBeat s !! x.1 = Some v
                   | None => True
                   end) (shownList (trace s)).

(** ** Timer handles *)

(** The handle the object remembers was handed out before: it is below the
    handle the window hands out next. *)
Definition timerFresh (s : Platform) : Prop :=
  match countdownInterval s with
  | Some h => (h < nextHandle s)%nat
  | None => True
  end.

(** A state the countdown can be started in: the countdown owns its timers
    and its handle is not the next one. *)
Definition timersSound (s : Platform) : Prop := timersOwned s /\ timerFresh s.

(** From [s0] to [s] only effects other than [setInterval] were added to the
    trace. *)
Definition installsNothing (s0 s : Platform) : Prop :=
  exists rest,
    trace s = trace s0 ++ rest
    /\ Forall (fun e => forall h, e <> SetInterval h) rest.

(** ** Reading the countdown text *)

(** Two decimal digits, tens first. *)
Definition twoDigits (n : N) : string :=
  String (pretty_N_char (n / 10)%N) (String (pretty_N_char (n mod 10)%N) "").

(** ** The API proxy (the serverless handler that forwards to the catalog) *)

(** A value of [req.query]: a string, or an array of strings when the key is
    repeated. *)
Inductive QueryValue :=
  | QString (v : string)
  | QArray (vs : list string).

(** The parts of the request the handler reads: [req.url], the entries of
    [req.query] in the order [Object.entries] yields them, and [req.method].
    Strings stand for their UTF-8 bytes. *)
Record ProxyRequest := mkProxyRequest {
  req_url : option string;
  req_query : list (string * QueryValue);
  req_method : option string
}.

(** Truthiness of a string: every string but the empty one. *)
Definition nonEmpty (s : string) : bool :=
  match s with
  | EmptyString => false
  | String _ _ => true
  end.

(** Truthiness of a query value: an array is an object, hence truthy even
    when it is empty. *)
Definition truthy (v : QueryValue) : bool :=
  match v with
  | QString s => nonEmpty s
  | QArray _ => true
  end.

(** [s.split(c)[0]]: what precedes the first [c], all of [s] without one. *)
Fixpoint beforeFirst (c : ascii) (s : string) : string :=
  match s with
  | EmptyString => EmptyString
  | String a r =>
      if Ascii.eqb a c then EmptyString else String a (beforeFirst c r)
  end.

Fixpoint dropChars (n : nat) (s : string) : string :=
  match n, s with
  | O, _ => s
  | S n', String _ r => dropChars n' r
  | S _, EmptyString => EmptyString
  end.

(** [s.startsWith(p)] *)
Fixpoint startsWith (s p : string) {struct p} : bool :=
  match p, s with
  | EmptyString, _ => true
  | String a p', String b s' => Ascii.eqb a b && startsWith s' p'
  | String _ _, EmptyString => false
  end.

(** [s.replace(p, '')] for a string pattern: the first occurrence of [p] is
    removed. *)
Fixpoint removeFirst (p s : string) : string :=
  if startsWith s p then dropChars (String.length p) s
  else
    match s with
    | EmptyString => EmptyString
    | String a r => String a (removeFirst p r)
    end.

(** [req.query[k]] *)
Fixpoint queryGet (k : string) (q : list (string * QueryValue))
  : option QueryValue :=
  match q with
  | [] => None
  | (k', v) :: r => if String.eqb k' k then Some v else queryGet k r
  end.

(** Method 1 of the handler: the API path read off [req.url]. *)
Definition pathFromUrl (url : option string) : string :=
  match url with
  | Some u =>
      if nonEmpty u then
        let pathPart := beforeFirst "?" u in
        if startsWith pathPart "/api/proxy/"
        then removeFirst "/api/proxy/" pathPart
        else if startsWith pathPart "/api/proxy"
        then removeFirst "/api/proxy" pathPart
        else ""%string
      else ""%string
  | None => ""%string
  end.

(** The API path after method 2, the fallback to the [path] query parameter
    ([pathParam.join('/')] for an array). *)
Definition apiPathOf (req : ProxyRequest) : string :=
  let apiPath := pathFromUrl (req_url req) in
  if nonEmpty apiPath then apiPath
  else
    match queryGet "path" (req_query req) with
    | Some pathParam =>
        if truthy pathParam then
          match pathParam with
          | QArray vs => String.concat "/" vs
          | QString v => v
          end
        else apiPath
    | None => apiPath
    end.

(** The pairs appended to [queryParams], in order. *)
Definition forwardedParams (q : list (string * QueryValue))
  : list (string * string) :=
  flat_map (fun kv =>
              if negb (String.eqb kv.1 "path") && truthy kv.2 then
                match kv.2 with
                | QArray vs => map (fun v => (kv.1, v)) vs
                | QString v => [(kv.1, v)]
                end
              else []) q.

(** [URLSearchParams.prototype.toString()]: the
    application/x-www-form-urlencoded serializer.  Bytes of letters, digits
    and [*-._] stand for themselves, a space becomes [+], every other byte
    is percent-encoded with upper-case hexadecimal digits. *)
Definition isFormSafe (c : ascii) : bool :=
  let n := N_of_ascii c in
  ((48 <=? n) && (n <=? 57) || (65 <=? n) && (n <=? 90)
   || (97 <=? n) && (n <=? 122) || (n =? 42) || (n =? 45) || (n =? 46)
   || (n =? 95))%N.

Definition hexDigit (n : N) : ascii :=
  ascii_of_N (if (n <? 10)%N then 48 + n else 55 + n)%N.

Definition encodeByte (c : ascii) : string :=
  if isFormSafe c then String c ""
  else if Ascii.eqb c " " then "+"%string
  else String "%" (String (hexDigit (N_of_ascii c / 16)%N)
                     (String (hexDigit (N_of_ascii c mod 16)%N) "")).

Fixpoint formEncode (s : string) : string :=
  match s with
  | EmptyString => EmptyString
  | String c r => encodeByte c +:+ formEncode r
  end.

Definition paramsToString (l : list (string * string)) : string :=
  String.concat "&"
    (map (fun kv => formEncode kv.1 +:+ "=" +:+ formEncode kv.2) l).

Definition gammaApi : string := "https://gamma-api.polymarket.com/".

(** [fullUrl]: the base URL with the API path, and the query string when
    there is one. *)
Definition fullUrlOf (req : ProxyRequest) : string :=
  let baseUrl := gammaApi +:+ apiPathOf req in
  let qs := paramsToString (forwardedParams (req_query req)) in
  if nonEmpty qs then baseUrl +:+ "?" +:+ qs else baseUrl.

(** What a [catch] receives: an [Error] with its message, or anything
    else. *)
Inductive Thrown :=
  | ThrownError (message : string)
  | ThrownOther.

(** What the handler reads of the upstream response: the status, the body as
    text ([None] when [text()] rejects) and the body as JSON (the parsed
    data, or what [json()] throws). *)
Record UpstreamResponse := mkUpstreamResponse {
  up_status : Z;
  up_text : option string;
  up_json : Thrown + string
}.

(** [response.ok]: the status is in the range 200 to 299. *)
Definition up_ok (r : UpstreamResponse) : bool :=
  (200 <=? up_status r) && (up_status r <=? 299).

Inductive ReplyBody :=
  | NoPathBody (url : option string) (query : list (string * QueryValue))
  | UpstreamErrorBody (status : Z) (details : string)
  | DataBody (data : string)
  | ProxyFailureBody (message : string) (url : string).

(** The response the handler sends: status code, JSON body, and whether the
    three CORS headers were set. *)
Record Reply := mkReply {
  rep_status : Z;
  rep_body : ReplyBody;
  rep_cors : bool
}.

(** [error instanceof Error ? error.message : 'Unknown error'] *)
Definition messageOf (t : Thrown) : string :=
  match t with
  | ThrownError m => m
  | ThrownOther => "Unknown error"%string
  end.

(** The [try] block of the handler once [fetch] has settled. *)
Definition replyOf (fullUrl : string) (outcome : Thrown + UpstreamResponse)
  : Reply :=
  match outcome with
  | inl t => mkReply 500 (ProxyFailureBody (messageOf t) fullUrl) false
  | inr response =>
      if negb (up_ok response) then
        mkReply (up_status response)
          (UpstreamErrorBody (up_status response)
             (default "Unknown error"%string (up_text response)))
          false
      else
        match up_json response with
        | inl t => mkReply 500 (ProxyFailureBody (messageOf t) fullUrl) false
        | inr data => mkReply 200 (DataBody data) true
        end
  end.

(** [req.method || 'GET'] *)
Definition methodOf (req : ProxyRequest) : string :=
  match req_method req with
  | Some m => if nonEmpty m then m else "GET"%string
  | None => "GET"%string
  end.

(** The handler, with [fetch] as the function from URL and method to what
    the upstream call settles to. *)
Definition handler (fetch : string -> string -> Thrown + UpstreamResponse)
    (req : ProxyRequest) : Reply :=
  let apiPath := apiPathOf req in
  let fullUrl := fullUrlOf req in
  if negb (nonEmpty apiPath) then
    mkReply 400 (NoPathBody (req_url req) (req_query req)) false
  else replyOf fullUrl (fetch fullUrl (methodOf req)).

(** Does the character occur in the string? *)
Fixpoint hasChar (c : ascii) (s : string) : bool :=
  match s with
  | EmptyString => false
  | String a r => Ascii.eqb a c || hasChar c r
  end.

(** ** Status derivation *)

Example formatCountdown_899 : formatCountdown 899 = "00:14:59"%string.
Proof. vm_compute. reflexivity. Qed.

Example formatCountdown_3725 : formatCountdown 3725 = "01:02:05"%string.
Proof. vm_compute. reflexivity. Qed.

Lemma contiguousSlots_cons d r :
  contiguousSlots (d :: r) = true ->
  endTime d = startTime d + slotMs
  /\ contiguousSlots r = true
  /\ match r with [] => True | d' :: _ => startTime d' = endTime d end.
Proof.
  simpl. intros H.
  apply andb_prop in H as [H Hr]. apply andb_prop in H as [Hd Hn].
  apply Z.eqb_eq in Hd. repeat split; try done.
  destruct r as [|d' r']; [done|]. by apply Z.eqb_eq in Hn.
Qed.

Lemma deriveStatus_upcoming now d :
  now < startTime d -> deriveStatus now d = Upcoming.
Proof.
  intros H. unfold deriveStatus.
  destruct (Z.ltb_spec now (startTime d)); [done|lia].
Qed.

(** Once a slot has not started, no later slot has. *)
Lemma all_upcoming now r :
  contiguousSlots r = true ->
  match r with [] => True | d :: _ => now < startTime d end ->
  statuses now r = replicate (length r) Upcoming.
Proof.
  induction r as [|d r IH]; intros Hc Hlt; [done|].
  apply contiguousSlots_cons in Hc as (Hd & Hr & Hn).
  simpl. rewrite deriveStatus_upcoming by done. f_equal.
  apply IH; [done|]. destruct r as [|d' r']; [done|].
  unfold slotMs in Hd. lia.
Qed.

Lemma filter_active_replicate n st :
  filter (fun x => x = Active) (replicate n st)
  = if decide (st = Active) then replicate n st else [].
Proof.
  induction n as [|n IH]; simpl.
  - by destruct (decide (st = Active)).
  - rewrite filter_cons, IH. by destruct (decide (st = Active)).
Qed.

Lemma statuses_shape now l :
  contiguousSlots l = true ->
  exists a b c : nat,
    statuses now l
    = replicate a Expired ++ replicate b Active ++ replicate c Upcoming
    /\ (b <= 1)%nat.
Proof.
  induction l as [|d r IH]; intros Hc.
  - exists 0%nat, 0%nat, 0%nat. split; [done|lia].
  - pose proof (contiguousSlots_cons _ _ Hc) as (Hd & Hr & Hn).
    simpl. unfold deriveStatus at 1.
    destruct (Z.ltb_spec now (startTime d)) as [Hs|Hs].
    + exists 0%nat, 0%nat, (S (length r)). split; [|lia]. simpl. f_equal.
      apply all_upcoming; [done|]. destruct r as [|d' r']; [done|].
      unfold slotMs in Hd. lia.
    + destruct (Z.ltb_spec now (endTime d)) as [He|He].
      * exists 0%nat, 1%nat, (length r). split; [|lia]. simpl. f_equal.
        apply all_upcoming; [done|]. destruct r as [|d' r']; [done|]. lia.
      * destruct (IH Hr) as (a & b & c & Hst & Hb).
        exists (S a), b, c. split; [|done]. simpl. f_equal. exact Hst.
Qed.

(** C1.  For every event list made of contiguous, non-overlapping
    fifteen-minute slots and every instant [now], the derived statuses read
    along the list are zero or more [Expired], then at most one [Active],
    then zero or more [Upcoming]; in particular at most one event is
    [Active]. *)
Theorem statuses_expired_active_upcoming (now : Z) (l : list EventDescriptor) :
  contiguousSlots l = true ->
  (exists a b c : nat,
     statuses now l
     = replicate a Expired ++ replicate b Active ++ replicate c Upcoming
     /\ (b <= 1)%nat)
  /\ (countActive now l <= 1)%nat.
Proof.
  intros Hc. destruct (statuses_shape now l Hc) as (a & b & c & Hst & Hb).
  split; [by exists a, b, c|].
  unfold countActive. rewrite Hst, !filter_app, !filter_active_replicate.
  repeat case_decide; try done.
  rewrite !length_app, length_replicate. simpl. lia.
Qed.

Lemma statuses_expired_active_upcoming_witness :
  contiguousSlots [slotA; slotB; slotC] = true
  /\ statuses 1000000 [slotA; slotB; slotC] = [Expired; Active; Upcoming]
  /\ (countActive 1000000 [slotA; slotB; slotC] <= 1)%nat.
Proof.
  split; [reflexivity|]. split; [reflexivity|].
  apply (statuses_expired_active_upcoming 1000000 [slotA; slotB; slotC]).
  reflexivity.
Defined.

(** ** What every handler below a tick preserves *)

Lemma has_false (m : gmap string Z) k : has m k = false -> m !! k = None.
Proof.
  unfold has. intros H. apply bool_decide_eq_false in H.
  by apply eq_None_not_Some.
Qed.

Lemma has_true (m : gmap string Z) k : has m k = true -> is_Some (m !! k).
Proof. unfold has. intros H. by apply bool_decide_eq_true in H. Qed.

Lemma countdownInterval_stopCountdown s :
  countdownInterval (stopCountdown s) = None.
Proof. unfold stopCountdown. by destruct (countdownInterval s) eqn:E. Qed.

Lemma forEachFrom_keeps {A St : Type} (P : St -> Prop)
    (f : A -> nat -> St -> St) :
  (forall x i s, P s -> P (f x i s)) ->
  forall l i s, P s -> P (forEachFrom f i l s).
Proof.
  intros Hf l. induction l as [|x r IH]; intros i s Hs; simpl; [done|].
  apply IH. by apply Hf.
Qed.

(** A property kept by the elementary writes, each under the guard the code
    places before it, is kept by every handler that does not take a new
    price. *)
Section Preservation.
Variable Inv : Platform -> Prop.
Hypothesis Inv_emit :
  forall e s, isCapture e = false -> Inv s -> Inv (emit e s).
Hypothesis Inv_text : forall t s, Inv s -> Inv (setCountdownText t s).
Hypothesis Inv_clear :
  forall h s, countdownInterval s = Some h -> Inv s ->
              Inv (clearCountdownInterval h s).
Hypothesis Inv_install :
  forall s, countdownInterval s = None -> Inv s ->
            Inv (installCountdownInterval s).
Hypothesis Inv_toBeat :
  forall k v s, eventPriceToBeat s !! k = None -> currentPrice s = Some v ->
                Inv s -> Inv (setPriceToBeat k v s).
Hypothesis Inv_last :
  forall k v s, eventLastPrice s !! k = None -> currentPrice s = Some v ->
                Inv s -> Inv (setLastPrice k v s).

Lemma stopCountdown_keeps s : Inv s -> Inv (stopCountdown s).
Proof.
  intros H. unfold stopCountdown.
  destruct (countdownInterval s) eqn:E; auto.
Qed.

Lemma loadEvents_keeps s : Inv s -> Inv (loadEvents s).
Proof. intros H. by apply Inv_emit. Qed.

Lemma updateCountdown_keeps now s : Inv s -> Inv (updateCountdown now s).
Proof.
  intros H. unfold updateCountdown.
  destruct (find isActive (getEvents now (catalog s))) as [a|];
    [|by apply stopCountdown_keeps].
  destruct (countdownText s) as [txt|]; [|by apply stopCountdown_keeps].
  cbv zeta.
  set (s1 := emit _ (setCountdownText _ s)).
  assert (Inv s1) as H1 by (apply Inv_emit; [done|by apply Inv_text]).
  destruct (timeLeft (endDate a) now =? 0); [|done].
  apply loadEvents_keeps, stopCountdown_keeps.
  destruct (currentPrice s1) as [p|] eqn:Hp; [|done].
  destruct (find isActive (getEvents now (catalog s1))); [|done].
  destruct (arrayGet _ _) as [next|]; [|done].
  destruct (has (eventLastPrice s1) (slug next)) eqn:Hh; [done|].
  apply Inv_last; auto using has_false.
Qed.

Lemma startCountdown_keeps now s : Inv s -> Inv (startCountdown now s).
Proof.
  intros H. unfold startCountdown. apply updateCountdown_keeps.
  apply Inv_install; [apply countdownInterval_stopCountdown|].
  by apply stopCountdown_keeps.
Qed.

Lemma renderActiveEvent_keeps now s : Inv s -> Inv (renderActiveEvent now s).
Proof.
  intros H. unfold renderActiveEvent. cbv zeta.
  set (s1 := emit CallRenderActiveEvent s).
  assert (Inv s1) as H1 by by apply Inv_emit.
  destruct (negb (panelPresent s1)); [done|].
  destruct (find isActive (getEvents now (catalog s1))) as [a|].
  - apply startCountdown_keeps, Inv_emit; [done|]. apply Inv_text.
    destruct (eventPriceToBeat s1 !! slug a) eqn:Hk; [done|].
    destruct (currentPrice s1) eqn:Hp; [|done]. by apply Inv_toBeat.
  - apply Inv_emit; [done|]. by apply Inv_text, stopCountdown_keeps.
Qed.

Lemma capturePriceForActiveEvent_keeps now s :
  Inv s -> Inv (capturePriceForActiveEvent now s).
Proof.
  intros H. unfold capturePriceForActiveEvent.
  destruct (currentPrice s) as [p|] eqn:Hp; [|done]. cbv zeta.
  destruct (find isActive (getEvents now (catalog s))) as [a|]; [|done].
  destruct (has (eventPriceToBeat s) (slug a)) eqn:Hh; [done|].
  apply renderActiveEvent_keeps, Inv_toBeat; auto using has_false.
Qed.

Lemma renderEventsTable_keeps now s : Inv s -> Inv (renderEventsTable now s).
Proof.
  intros H. unfold renderEventsTable. cbv zeta.
  set (s1 := emit CallRenderEventsTable s).
  assert (Inv s1) as H1 by by apply Inv_emit.
  destruct (negb (tablePresent s1)); [done|].
  apply Inv_emit; [done|].
  by apply renderActiveEvent_keeps, capturePriceForActiveEvent_keeps.
Qed.

Lemma captureExpiredStep_keeps now events e i s :
  Inv s -> Inv (captureExpiredStep now events e i s).
Proof.
  intros H. unfold captureExpiredStep. destruct i as [|j]; [done|].
  destruct (events !! j) as [prev|]; [|done].
  destruct (isExpired prev); simpl; [|done].
  destruct (has (eventLastPrice s) (slug e)) eqn:Hh; simpl; [done|].
  destruct (currentPrice s) as [p|] eqn:Hp; [|done].
  apply renderEventsTable_keeps, Inv_last; auto using has_false.
Qed.

Lemma capturePriceForExpiredEvent_keeps now s :
  Inv s -> Inv (capturePriceForExpiredEvent now s).
Proof.
  intros H. unfold capturePriceForExpiredEvent.
  destruct (currentPrice s); [|done]. cbv zeta. unfold forEach.
  apply forEachFrom_keeps; [|done].
  intros. by apply captureExpiredStep_keeps.
Qed.

Lemma updateLastStep_keeps events e i s :
  Inv s -> Inv (updateLastStep events e i s).
Proof.
  intros H. unfold updateLastStep. destruct i as [|j]; [done|].
  destruct (events !! j) as [prev|]; [|done].
  destruct (isExpired prev); simpl; [|done].
  destruct (has (eventLastPrice s) (slug e)) eqn:Hh; simpl; [done|].
  destruct (currentPrice s) as [p|] eqn:Hp; [|done].
  apply Inv_last; auto using has_false.
Qed.

Lemma updateLastPrices_keeps now s : Inv s -> Inv (updateLastPrices now s).
Proof.
  intros H. unfold updateLastPrices.
  destruct (currentPrice s); [|done]. cbv zeta. unfold forEach.
  apply forEachFrom_keeps; [|done].
  intros. by apply updateLastStep_keeps.
Qed.

Lemma loadEventsRejected_keeps now n s :
  Inv s -> Inv (loadEventsRejected now n s).
Proof.
  intros H. unfold loadEventsRejected. destruct (0 <? n)%nat; [|done].
  by apply renderEventsTable_keeps, updateLastPrices_keeps.
Qed.
End Preservation.

(** ** Captures only extend the maps *)

Lemma extends_refl s : extends s s.
Proof. constructor; auto. Qed.

Lemma extends_trans s1 s2 s3 : extends s1 s2 -> extends s2 s3 -> extends s1 s3.
Proof.
  intros [P1 H1 B1 L1 NB1 NL1] [P2 H2 B2 L2 NB2 NL2]. constructor.
  - congruence.
  - congruence.
  - by etrans.
  - by etrans.
  - intros k w Hk. destruct (NB2 k w Hk) as [Hk2|Hk2]; [by apply NB1|].
    right. congruence.
  - intros k w Hk. destruct (NL2 k w Hk) as [Hk2|Hk2]; [by apply NL1|].
    right. congruence.
Qed.

Lemma extends_emit s0 e s :
  isCapture e = false -> extends s0 s -> extends s0 (emit e s).
Proof.
  intros _ H. eapply extends_trans; [exact H|]. constructor; simpl; auto.
Qed.

Lemma extends_text s0 t s : extends s0 s -> extends s0 (setCountdownText t s).
Proof.
  intros H. eapply extends_trans; [exact H|]. constructor; simpl; auto.
Qed.

Lemma extends_clear s0 h s :
  countdownInterval s = Some h -> extends s0 s ->
  extends s0 (clearCountdownInterval h s).
Proof.
  intros _ H. eapply extends_trans; [exact H|]. constructor; simpl; auto.
Qed.

Lemma extends_install s0 s :
  countdownInterval s = None -> extends s0 s ->
  extends s0 (installCountdownInterval s).
Proof.
  intros _ H. eapply extends_trans; [exact H|]. constructor; simpl; auto.
Qed.

Lemma extends_toBeat s0 k v s :
  eventPriceToBeat s !! k = None -> currentPrice s = Some v ->
  extends s0 s -> extends s0 (setPriceToBeat k v s).
Proof.
  intros Hk Hp H. eapply extends_trans; [exact H|].
  constructor; simpl; auto.
  - by apply insert_subseteq.
  - intros k' w. rewrite lookup_insert. case_decide; [|auto].
    intros [= <-]. by right.
Qed.

Lemma extends_last s0 k v s :
  eventLastPrice s !! k = None -> currentPrice s = Some v ->
  extends s0 s -> extends s0 (setLastPrice k v s).
Proof.
  intros Hk Hp H. eapply extends_trans; [exact H|].
  constructor; simpl; auto.
  - by apply insert_subseteq.
  - intros k' w. rewrite lookup_insert. case_decide; [|auto].
    intros [= <-]. by right.
Qed.

Ltac by_extends_writes :=
  first [ apply extends_emit | apply extends_text | apply extends_clear
        | apply extends_install | apply extends_toBeat | apply extends_last
        | apply extends_refl ].

Lemma stopCountdown_extends s : extends s (stopCountdown s).
Proof. apply (stopCountdown_keeps (extends s)); by_extends_writes. Qed.

Lemma updateCountdown_extends now s : extends s (updateCountdown now s).
Proof. apply (updateCountdown_keeps (extends s)); by_extends_writes. Qed.

Lemma startCountdown_extends now s : extends s (startCountdown now s).
Proof. apply (startCountdown_keeps (extends s)); by_extends_writes. Qed.

Lemma renderActiveEvent_extends now s : extends s (renderActiveEvent now s).
Proof. apply (renderActiveEvent_keeps (extends s)); by_extends_writes. Qed.

Lemma capturePriceForActiveEvent_extends now s :
  extends s (capturePriceForActiveEvent now s).
Proof.
  apply (capturePriceForActiveEvent_keeps (extends s)); by_extends_writes.
Qed.

Lemma renderEventsTable_extends now s : extends s (renderEventsTable now s).
Proof. apply (renderEventsTable_keeps (extends s)); by_extends_writes. Qed.

Lemma capturePriceForExpiredEvent_extends now s :
  extends s (capturePriceForExpiredEvent now s).
Proof.
  apply (capturePriceForExpiredEvent_keeps (extends s)); by_extends_writes.
Qed.

Lemma updateLastPrices_extends now s : extends s (updateLastPrices now s).
Proof. apply (updateLastPrices_keeps (extends s)); by_extends_writes. Qed.

Lemma loadEventsRejected_extends now n s :
  extends s (loadEventsRejected now n s).
Proof. apply (loadEventsRejected_keeps (extends s)); by_extends_writes. Qed.

Lemma extends_setCatalog_inv l s s' :
  extends (setCatalog l s) s' -> extends s s'.
Proof. intros [P H B L NB NL]. constructor; auto. Qed.

Lemma extends_setStatus_inv st s s' :
  extends (setStatus st s) s' -> extends s s'.
Proof. intros [P H B L NB NL]. constructor; auto. Qed.

(** Every handler other than the price tick leaves the latest price and the
    history alone and only extends the capture maps. *)
Lemma step_extends now sig s : isTick sig = false -> extends s (step now sig s).
Proof.
  destruct sig as [u|st|cb|cb|h|l|n|l]; intros Ht; try discriminate; simpl.
  - unfold handleStatusChange. apply extends_emit; [done|].
    apply (extends_setStatus_inv st), extends_refl.
  - unfold onConnectClick, clientCallback, handleStatusChange.
    destruct cb as [st|].
    + apply extends_emit; [done|]. apply (extends_setStatus_inv st).
      constructor; simpl; auto.
    + apply extends_emit; [done|apply extends_refl].
  - unfold onDisconnectClick, clientCallback, handleStatusChange.
    destruct cb as [st|]; constructor; simpl; auto.
  - case_bool_decide; [apply updateCountdown_extends|apply extends_refl].
  - unfold loadEventsResolved. apply (extends_setCatalog_inv l).
    eapply extends_trans; [apply updateLastPrices_extends|].
    apply renderEventsTable_extends.
  - apply loadEventsRejected_extends.
  - unfold onEventsUpdated. apply (extends_setCatalog_inv l).
    apply renderEventsTable_extends.
Qed.

Lemma grows_refl s : grows s s.
Proof. by split. Qed.

Lemma grows_trans s1 s2 s3 : grows s1 s2 -> grows s2 s3 -> grows s1 s3.
Proof. intros [B1 L1] [B2 L2]. split; by etrans. Qed.

Lemma extends_grows s s' : extends s s' -> grows s s'.
Proof. intros H. split; apply H. Qed.

Lemma handlePriceUpdate_grows now u s : grows s (handlePriceUpdate now u s).
Proof.
  unfold handlePriceUpdate. cbv zeta.
  set (s1 := setPrice _ _ s).
  assert (grows s s1) as H1 by by split.
  eapply grows_trans; [exact H1|].
  eapply grows_trans;
    [apply extends_grows, (capturePriceForActiveEvent_extends now)|].
  eapply grows_trans;
    [apply extends_grows, (capturePriceForExpiredEvent_extends now)|].
  by split.
Qed.

Lemma step_grows now sig s : grows s (step now sig s).
Proof.
  destruct (isTick sig) eqn:Ht.
  - destruct sig; try discriminate. apply handlePriceUpdate_grows.
  - by apply extends_grows, step_extends.
Qed.

Lemma run_grows sigs s : grows s (run sigs s).
Proof.
  revert s. induction sigs as [|[now sig] r IH]; intros s; simpl.
  - apply grows_refl.
  - eapply grows_trans; [apply step_grows|apply IH].
Qed.

Lemma run_extends sigs s :
  forallb (fun x => negb (isTick x.2)) sigs = true -> extends s (run sigs s).
Proof.
  revert s. induction sigs as [|[now sig] r IH]; intros s Hs; simpl.
  - apply extends_refl.
  - simpl in Hs. apply andb_prop in Hs as [Hsig Hr].
    apply negb_true_iff in Hsig.
    eapply extends_trans; [by apply step_extends|by apply IH].
Qed.

(** ** Write-once capture maps *)

(** C2.  Once a slug has a price-to-beat entry, no later handling of any
    signal (price ticks with any value included) and no direct invocation of
    a price-to-beat writer (the capture rule, the events-table render, the
    active-event render) changes the stored value. *)
Theorem priceToBeat_write_once (k : string) (v : Z) (s : Platform) :
  eventPriceToBeat s !! k = Some v ->
  (forall sigs, eventPriceToBeat (run sigs s) !! k = Some v)
  /\ (forall now,
        eventPriceToBeat (capturePriceForActiveEvent now s) !! k = Some v
        /\ eventPriceToBeat (renderEventsTable now s) !! k = Some v
        /\ eventPriceToBeat (renderActiveEvent now s) !! k = Some v).
Proof.
  intros Hk. split.
  - intros sigs. destruct (run_grows sigs s) as [Hb _].
    by eapply lookup_weaken.
  - intros now. repeat split.
    + eapply lookup_weaken; [exact Hk|].
      apply (capturePriceForActiveEvent_extends now s).
    + eapply lookup_weaken; [exact Hk|].
      apply (renderEventsTable_extends now s).
    + eapply lookup_weaken; [exact Hk|].
      apply (renderActiveEvent_extends now s).
Qed.

Lemma priceToBeat_write_once_witness :
  eventPriceToBeat running !! "btc-a"%string = Some 6500000
  /\ eventPriceToBeat
       (run [(3000, PriceTick (tickOf 3000 7000000));
             (4000, EventsUpdated [slotA; slotB; slotC]);
             (5000, PriceTick (tickOf 5000 7100000))] running)
       !! "btc-a"%string = Some 6500000.
Proof.
  assert (eventPriceToBeat running !! "btc-a"%string = Some 6500000) as H
    by (vm_compute; reflexivity).
  exact (conj H (proj1 (priceToBeat_write_once "btc-a" 6500000 running H) _)).
Defined.

(** C3.  Once a slug has a last-price entry, no later handling of any signal
    (however many ticks follow the expiry) and no direct invocation of a
    last-price writer (the adjacent-pair rule on ticks, the rule on
    event-list load, the countdown expiry handler) changes the stored
    value. *)
Theorem lastPrice_write_once (k : string) (v : Z) (s : Platform) :
  eventLastPrice s !! k = Some v ->
  (forall sigs, eventLastPrice (run sigs s) !! k = Some v)
  /\ (forall now,
        eventLastPrice (capturePriceForExpiredEvent now s) !! k = Some v
        /\ eventLastPrice (updateLastPrices now s) !! k = Some v
        /\ eventLastPrice (updateCountdown now s) !! k = Some v).
Proof.
  intros Hk. split.
  - intros sigs. destruct (run_grows sigs s) as [_ Hl].
    by eapply lookup_weaken.
  - intros now. repeat split.
    + eapply lookup_weaken; [exact Hk|].
      apply (capturePriceForExpiredEvent_extends now s).
    + eapply lookup_weaken; [exact Hk|].
      apply (updateLastPrices_extends now s).
    + eapply lookup_weaken; [exact Hk|].
      apply (updateCountdown_extends now s).
Qed.

Lemma lastPrice_write_once_witness :
  eventLastPrice (step 899500 (CountdownFire 1) running) !! "btc-b"%string
  = Some 6500000
  /\ eventLastPrice
       (run [(901000, PriceTick (tickOf 901000 7000000));
             (902000, RefreshResolved [slotA; slotB; slotC]);
             (903000, PriceTick (tickOf 903000 7100000))]
          (step 899500 (CountdownFire 1) running))
       !! "btc-b"%string = Some 6500000.
Proof.
  assert (eventLastPrice (step 899500 (CountdownFire 1) running)
            !! "btc-b"%string = Some 6500000) as H
    by (vm_compute; reflexivity).
  exact (conj H (proj1 (lastPrice_write_once "btc-b" 6500000 _ H) _)).
Defined.

(** ** No price, no capture *)

Lemma extends_no_price s s' :
  currentPrice s = None -> extends s s' ->
  currentPrice s' = None
  /\ eventPriceToBeat s' = eventPriceToBeat s
  /\ eventLastPrice s' = eventLastPrice s.
Proof.
  intros Hp [P H B L NB NL]. split; [congruence|].
  split; apply map_eq; intros k.
  - destruct (eventPriceToBeat s' !! k) as [w|] eqn:Hk.
    + destruct (NB k w Hk) as [Hs|Hs]; [done|congruence].
    + symmetry. by eapply lookup_weaken_None.
  - destruct (eventLastPrice s' !! k) as [w|] eqn:Hk.
    + destruct (NL k w Hk) as [Hs|Hs]; [done|congruence].
    + symmetry. by eapply lookup_weaken_None.
Qed.

(** C6.  While no price has been received, no capture rule fires: the three
    capture rules return the state as it is, and every run of handlers that
    take no price tick leaves both capture maps unchanged, so a slug without
    an entry stays without one (an absent entry, not an entry holding
    zero). *)
Theorem no_price_no_capture (s : Platform) :
  currentPrice s = None ->
  (forall now,
     capturePriceForActiveEvent now s = s
     /\ capturePriceForExpiredEvent now s = s
     /\ updateLastPrices now s = s)
  /\ (forall sigs,
        forallb (fun x => negb (isTick x.2)) sigs = true ->
        currentPrice (run sigs s) = None
        /\ eventPriceToBeat (run sigs s) = eventPriceToBeat s
        /\ eventLastPrice (run sigs s) = eventLastPrice s
        /\ (forall k, eventPriceToBeat s !! k = None ->
                      eventPriceToBeat (run sigs s) !! k <> Some 0)
        /\ (forall k, eventLastPrice s !! k = None ->
                      eventLastPrice (run sigs s) !! k <> Some 0)).
Proof.
  intros Hp. split.
  - intros now.
    unfold capturePriceForActiveEvent, capturePriceForExpiredEvent,
      updateLastPrices.
    by rewrite Hp.
  - intros sigs Hs.
    destruct (extends_no_price s (run sigs s) Hp (run_extends sigs s Hs))
      as (Hp' & Hb & Hl).
    repeat split; try done.
    + intros k Hk. rewrite Hb, Hk. done.
    + intros k Hk. rewrite Hl, Hk. done.
Qed.

Lemma no_price_no_capture_witness :
  currentPrice freshPage = None
  /\ eventPriceToBeat
       (run [(1000, EventsUpdated [slotA; slotB; slotC]);
             (2000, CountdownFire 0);
             (901000, RefreshResolved [slotA; slotB; slotC])] freshPage)
     = eventPriceToBeat freshPage
  /\ eventLastPrice
       (run [(1000, EventsUpdated [slotA; slotB; slotC]);
             (2000, CountdownFire 0);
             (901000, RefreshResolved [slotA; slotB; slotC])] freshPage)
     = eventLastPrice freshPage.
Proof.
  assert (currentPrice freshPage = None) as H by reflexivity.
  split; [exact H|].
  destruct (no_price_no_capture freshPage H) as [_ Hrun].
  destruct (Hrun [(1000, EventsUpdated [slotA; slotB; slotC]);
                  (2000, CountdownFire 0%nat);
                  (901000, RefreshResolved [slotA; slotB; slotC])]
              eq_refl) as (_ & Hb & Hl & _).
  split; [exact Hb|exact Hl].
Defined.

(** ** Disconnecting *)

Lemma handlePriceUpdate_price now u s :
  currentPrice (handlePriceUpdate now u s) = Some (value (payload u))
  /\ priceHistory (handlePriceUpdate now u s)
     = pushHistory (mkPricePoint (p_timestamp (payload u)) (value (payload u)))
         (priceHistory s).
Proof.
  unfold handlePriceUpdate. cbv zeta.
  set (s1 := setPrice _ _ s).
  pose proof (capturePriceForActiveEvent_extends now s1) as E1.
  pose proof (capturePriceForExpiredEvent_extends now
                (capturePriceForActiveEvent now s1)) as E2.
  destruct (extends_trans _ _ _ E1 E2) as [P H _ _ _ _].
  simpl. by rewrite P, H.
Qed.

(** C8.  The disconnect click resets the connection status to disconnected
    with no source, no last update and no error, and leaves the latest price,
    the price history, both capture maps, the event list and the countdown
    timer as they were; a tick delivered after reconnecting is appended to
    the same history. *)
Theorem disconnect_keeps_engine_state (now : Z) (cb : option ConnectionStatus)
    (s : Platform) :
  let s' := step now (DisconnectClick cb) s in
  currentStatus s' = mkConnectionStatus false None None None
  /\ currentPrice s' = currentPrice s
  /\ priceHistory s' = priceHistory s
  /\ eventPriceToBeat s' = eventPriceToBeat s
  /\ eventLastPrice s' = eventLastPrice s
  /\ catalog s' = catalog s
  /\ countdownInterval s' = countdownInterval s
  /\ countdownTimers s' = countdownTimers s
  /\ (forall now1 now2 cb' u,
        priceHistory (run [(now1, ConnectClick cb'); (now2, PriceTick u)] s')
        = pushHistory
            (mkPricePoint (p_timestamp (payload u)) (value (payload u)))
            (priceHistory s)).
Proof.
  intros s'. subst s'.
  change (step now (DisconnectClick cb) s) with (onDisconnectClick cb s).
  repeat split; try (by destruct cb).
  intros now1 now2 cb' u.
  change (run [(now1, ConnectClick cb'); (now2, PriceTick u)]
            (onDisconnectClick cb s))
    with (handlePriceUpdate now2 u
            (onConnectClick cb' (onDisconnectClick cb s))).
  rewrite (proj2 (handlePriceUpdate_price now2 u _)).
  by destruct cb', cb.
Qed.

(** ** Latest price and history agree *)

Lemma last_pushHistory pt h : last (pushHistory pt h) = Some pt.
Proof.
  unfold pushHistory. cbv zeta.
  destruct (maxHistorySize <? length (h ++ [pt]))%nat eqn:E.
  - destruct h as [|x h']; simpl in *.
    + unfold maxHistorySize in E. discriminate.
    + apply last_snoc.
  - apply last_snoc.
Qed.

Lemma priceInv_tick now u s : priceInv (handlePriceUpdate now u s).
Proof.
  unfold priceInv.
  destruct (handlePriceUpdate_price now u s) as [-> ->].
  by rewrite last_pushHistory.
Qed.

Lemma priceInv_step now sig s : priceInv s -> priceInv (step now sig s).
Proof.
  intros H. destruct (isTick sig) eqn:Ht.
  - destruct sig; try discriminate. apply priceInv_tick.
  - destruct (step_extends now sig s Ht) as [P Hh _ _ _ _].
    unfold priceInv. by rewrite P, Hh.
Qed.

Lemma priceInv_initial panel table cd :
  priceInv (initialPlatform panel table cd).
Proof. done. Qed.

(** C10.  From a state in which the latest price is the value of the most
    recent history entry, every run of handlers ends in such a state; a price
    tick sets the latest price and the most recent history entry from the
    same update, and a run without price ticks (disconnecting included)
    writes neither field. *)
Theorem history_agrees_with_price (s : Platform) (sigs : list (Z * Signal)) :
  priceInv s ->
  priceInv (run sigs s)
  /\ (forall now u,
        currentPrice (step now (PriceTick u) s) = Some (value (payload u))
        /\ last (priceHistory (step now (PriceTick u) s))
           = Some (mkPricePoint (p_timestamp (payload u)) (value (payload u))))
  /\ (forallb (fun x => negb (isTick x.2)) sigs = true ->
      currentPrice (run sigs s) = currentPrice s
      /\ priceHistory (run sigs s) = priceHistory s).
Proof.
  intros H. split; [|split].
  - revert s H. induction sigs as [|[now sig] r IH]; intros s H; simpl.
    + done.
    + by apply IH, priceInv_step.
  - intros now u.
    change (step now (PriceTick u) s) with (handlePriceUpdate now u s).
    destruct (handlePriceUpdate_price now u s) as [-> ->].
    split; [done|apply last_pushHistory].
  - intros Hs. by destruct (run_extends sigs s Hs) as [P Hh _ _ _ _].
Qed.

Lemma history_agrees_with_price_witness :
  priceInv freshPage
  /\ priceInv
       (run [(1000, EventsUpdated [slotA; slotB; slotC]);
             (2000, PriceTick (tickOf 2000 6500000));
             (2500, DisconnectClick None);
             (3000, PriceTick (tickOf 3000 6400000))] freshPage).
Proof.
  assert (priceInv freshPage) as H by exact I.
  exact (conj H (proj1 (history_agrees_with_price freshPage _ H))).
Defined.

(** ** One countdown timer *)

Lemma timersOwned_emit e s :
  isCapture e = false -> timersOwned s -> timersOwned (emit e s).
Proof. done. Qed.

Lemma timersOwned_text t s : timersOwned s -> timersOwned (setCountdownText t s).
Proof. done. Qed.

Lemma timersOwned_clear h s :
  countdownInterval s = Some h -> timersOwned s ->
  timersOwned (clearCountdownInterval h s).
Proof.
  unfold timersOwned. intros Hh Hs. simpl. rewrite Hs, Hh.
  apply difference_diag_L.
Qed.

Lemma timersOwned_install s :
  countdownInterval s = None -> timersOwned s ->
  timersOwned (installCountdownInterval s).
Proof.
  unfold timersOwned. intros Hh Hs. simpl. rewrite Hs, Hh.
  apply (left_id_L ∅ (∪)).
Qed.

Lemma timersOwned_toBeat k v s :
  eventPriceToBeat s !! k = None -> currentPrice s = Some v ->
  timersOwned s -> timersOwned (setPriceToBeat k v s).
Proof. done. Qed.

Lemma timersOwned_last k v s :
  eventLastPrice s !! k = None -> currentPrice s = Some v ->
  timersOwned s -> timersOwned (setLastPrice k v s).
Proof. done. Qed.

Ltac by_timers_writes :=
  first [ apply timersOwned_emit | apply timersOwned_text
        | apply timersOwned_clear | apply timersOwned_install
        | apply timersOwned_toBeat | apply timersOwned_last ].

Lemma stopCountdown_timers s :
  timersOwned s -> countdownTimers (stopCountdown s) = ∅.
Proof.
  intros H. pose proof (stopCountdown_keeps timersOwned timersOwned_clear s H)
    as H'.
  unfold timersOwned in H'. by rewrite countdownInterval_stopCountdown in H'.
Qed.

Lemma startCountdown_timers now s :
  timersOwned s -> timersOwned (startCountdown now s).
Proof. apply startCountdown_keeps; by_timers_writes. Qed.

Lemma step_timers now sig s : timersOwned s -> timersOwned (step now sig s).
Proof.
  intros H. destruct sig as [u|st|cb|cb|h|l|n|l]; simpl.
  - unfold handlePriceUpdate. cbv zeta. apply timersOwned_emit; [done|].
    apply capturePriceForExpiredEvent_keeps; try by_timers_writes.
    apply capturePriceForActiveEvent_keeps; try by_timers_writes.
    exact H.
  - exact H.
  - by destruct cb.
  - by destruct cb.
  - case_bool_decide; [|done].
    by apply updateCountdown_keeps; try by_timers_writes.
  - unfold loadEventsResolved.
    apply renderEventsTable_keeps; try by_timers_writes.
    apply updateLastPrices_keeps; try by_timers_writes. exact H.
  - by apply loadEventsRejected_keeps; try by_timers_writes.
  - unfold onEventsUpdated.
    apply renderEventsTable_keeps; try by_timers_writes. exact H.
Qed.

Lemma run_timers sigs s : timersOwned s -> timersOwned (run sigs s).
Proof.
  revert s. induction sigs as [|[now sig] r IH]; intros s H; simpl; [done|].
  by apply IH, step_timers.
Qed.

Lemma timersOwned_size s : timersOwned s -> (size (countdownTimers s) <= 1)%nat.
Proof.
  unfold timersOwned. intros ->. destruct (countdownInterval s).
  - rewrite size_singleton. lia.
  - rewrite size_empty. lia.
Qed.

Lemma timersOwned_initial panel table cd :
  timersOwned (initialPlatform panel table cd).
Proof. done. Qed.

Lemma timerFresh_emit e s :
  isCapture e = false -> timerFresh s -> timerFresh (emit e s).
Proof. done. Qed.

Lemma timerFresh_text t s : timerFresh s -> timerFresh (setCountdownText t s).
Proof. done. Qed.

Lemma timerFresh_clear h s :
  countdownInterval s = Some h -> timerFresh s ->
  timerFresh (clearCountdownInterval h s).
Proof. done. Qed.

Lemma timerFresh_install s :
  countdownInterval s = None -> timerFresh s ->
  timerFresh (installCountdownInterval s).
Proof. intros _ _. unfold timerFresh. simpl. lia. Qed.

Lemma timerFresh_toBeat k v s :
  eventPriceToBeat s !! k = None -> currentPrice s = Some v ->
  timerFresh s -> timerFresh (setPriceToBeat k v s).
Proof. done. Qed.

Lemma timerFresh_last k v s :
  eventLastPrice s !! k = None -> currentPrice s = Some v ->
  timerFresh s -> timerFresh (setLastPrice k v s).
Proof. done. Qed.

Ltac by_fresh_writes :=
  first [ apply timerFresh_emit | apply timerFresh_text
        | apply timerFresh_clear | apply timerFresh_install
        | apply timerFresh_toBeat | apply timerFresh_last ].

Lemma step_fresh now sig s : timerFresh s -> timerFresh (step now sig s).
Proof.
  intros H. destruct sig as [u|st|cb|cb|h|l|n|l]; simpl.
  - unfold handlePriceUpdate. cbv zeta. apply timerFresh_emit; [done|].
    apply capturePriceForExpiredEvent_keeps; try by_fresh_writes.
    apply capturePriceForActiveEvent_keeps; try by_fresh_writes.
    exact H.
  - exact H.
  - by destruct cb.
  - by destruct cb.
  - case_bool_decide; [|done].
    by apply updateCountdown_keeps; try by_fresh_writes.
  - unfold loadEventsResolved.
    apply renderEventsTable_keeps; try by_fresh_writes.
    apply updateLastPrices_keeps; try by_fresh_writes. exact H.
  - by apply loadEventsRejected_keeps; try by_fresh_writes.
  - unfold onEventsUpdated.
    apply renderEventsTable_keeps; try by_fresh_writes. exact H.
Qed.

Lemma run_sound sigs s : timersSound s -> timersSound (run sigs s).
Proof.
  revert s. induction sigs as [|[now sig] r IH]; intros s [Ho Hf]; simpl;
    [done|].
  apply IH. split; [by apply step_timers|by apply step_fresh].
Qed.

Lemma timersSound_initial panel table cd :
  timersSound (initialPlatform panel table cd).
Proof. done. Qed.

(** What [stopCountdown] adds to the trace: the clearing of the remembered
    handle, if there is one. *)
Lemma stopCountdown_trace s :
  trace (stopCountdown s)
  = trace s ++ match countdownInterval s with
               | Some h => [ClearInterval h]
               | None => []
               end.
Proof.
  unfold stopCountdown. destruct (countdownInterval s); [done|].
  by rewrite app_nil_r.
Qed.

Lemma stopCountdown_nextHandle s : nextHandle (stopCountdown s) = nextHandle s.
Proof. unfold stopCountdown. by destruct (countdownInterval s). Qed.

Lemma stopCountdown_page s :
  catalog (stopCountdown s) = catalog s
  /\ countdownText (stopCountdown s) = countdownText s.
Proof. unfold stopCountdown. by destruct (countdownInterval s). Qed.

Lemma installsNothing_refl s : installsNothing s s.
Proof. exists []. by rewrite app_nil_r. Qed.

Lemma installsNothing_emit s0 s e :
  (forall h, e <> SetInterval h) ->
  installsNothing s0 s -> installsNothing s0 (emit e s).
Proof.
  intros He (rest & Hr & Hf). exists (rest ++ [e]). split.
  - cbn [trace emit]. by rewrite Hr, <- app_assoc.
  - apply Forall_app. split; [done|]. by apply Forall_singleton.
Qed.

Lemma installsNothing_same s0 s s' :
  trace s' = trace s -> installsNothing s0 s -> installsNothing s0 s'.
Proof. intros Ht (rest & Hr & Hf). exists rest. by rewrite Ht. Qed.

Lemma installsNothing_stop s0 s :
  installsNothing s0 s -> installsNothing s0 (stopCountdown s).
Proof.
  intros H. unfold stopCountdown. destruct (countdownInterval s); [|done].
  unfold clearCountdownInterval. apply installsNothing_emit; [done|].
  by apply (installsNothing_same s0 s).
Qed.

(** [updateCountdown] installs nothing: what it adds to the trace has no
    [setInterval]. *)
Lemma updateCountdown_trace now s :
  installsNothing s (updateCountdown now s).
Proof.
  pose proof (installsNothing_refl s) as H0.
  unfold updateCountdown.
  destruct (find isActive (getEvents now (catalog s))) as [a|];
    [|by apply installsNothing_stop].
  destruct (countdownText s) as [txt|]; [|by apply installsNothing_stop].
  cbv zeta.
  assert (installsNothing s
            (emit (WriteCountdown (formatCountdown (timeLeft (endDate a) now)))
               (setCountdownText
                  (Some (formatCountdown (timeLeft (endDate a) now))) s)))
    as H1.
  { apply installsNothing_emit; [done|].
    by apply (installsNothing_same s s). }
  destruct (timeLeft (endDate a) now =? 0); [|exact H1].
  unfold loadEvents. apply installsNothing_emit; [done|].
  apply installsNothing_stop.
  cbn [currentPrice emit setCountdownText catalog eventLastPrice].
  destruct (currentPrice s); [|exact H1].
  destruct (find isActive (getEvents now (catalog s))); [|exact H1].
  destruct (arrayGet _ _) as [next|]; [|exact H1].
  destruct (has (eventLastPrice s) (slug next)); [exact H1|].
  unfold setLastPrice. apply installsNothing_emit; [done|].
  eapply installsNothing_same; [|exact H1]. reflexivity.
Qed.

Lemma updateCountdown_nextHandle now s :
  nextHandle (updateCountdown now s) = nextHandle s.
Proof.
  apply (updateCountdown_keeps (fun s' => nextHandle s' = nextHandle s));
    by intros.
Qed.

(** [updateCountdown] either leaves the timer as it is or leaves none. *)
Lemma updateCountdown_timer now s :
  timersOwned s ->
  (countdownInterval (updateCountdown now s) = countdownInterval s
   /\ countdownTimers (updateCountdown now s) = countdownTimers s)
  \/ (countdownInterval (updateCountdown now s) = None
      /\ countdownTimers (updateCountdown now s) = ∅).
Proof.
  intros Hown.
  assert (forall x, timersOwned x ->
            countdownInterval (stopCountdown x) = None
            /\ countdownTimers (stopCountdown x) = ∅) as Hstop.
  { intros x Hx. split; [apply countdownInterval_stopCountdown|].
    by apply stopCountdown_timers. }
  unfold updateCountdown.
  destruct (find isActive (getEvents now (catalog s))) as [a|];
    [|right; by apply Hstop].
  destruct (countdownText s) as [txt|]; [|right; by apply Hstop].
  cbv zeta. destruct (timeLeft (endDate a) now =? 0); [|by left].
  right. cbn [loadEvents emit countdownInterval countdownTimers].
  apply Hstop.
  cbn [currentPrice emit setCountdownText catalog eventLastPrice].
  destruct (currentPrice s); [|done].
  destruct (find isActive (getEvents now (catalog s))); [|done].
  destruct (arrayGet _ _) as [next|]; [|done].
  by destruct (has (eventLastPrice s) (slug next)).
Qed.

(** With an active event that has time left and a countdown element on the
    page, [updateCountdown] leaves the timer running. *)
Lemma updateCountdown_running now s a txt :
  find isActive (getEvents now (catalog s)) = Some a ->
  countdownText s = Some txt ->
  timeLeft (endDate a) now <> 0 ->
  countdownInterval (updateCountdown now s) = countdownInterval s
  /\ countdownTimers (updateCountdown now s) = countdownTimers s.
Proof.
  intros Hf Ht Hr. unfold updateCountdown. rewrite Hf, Ht. cbv zeta.
  by destruct (Z.eqb_spec (timeLeft (endDate a) now) 0).
Qed.

(** C9.  From a state in which the only live countdown timer, if any, is
    the one the object remembers (the constructor leaves such a state), every
    run of handlers ends in such a state, so at most one countdown timer is
    live.  Starting the countdown there first clears the remembered timer and
    only then installs a new one, under the window's next handle: that is
    the order of the two effects, nothing else is installed, the previous
    timer is no longer live afterwards, and the only timer that can be live
    is the new one.  The new timer stays live when an active event with time
    left and the countdown element are on the page; otherwise the immediate
    update has stopped it and none is live. *)
Theorem single_countdown_timer (s : Platform) (sigs : list (Z * Signal)) :
  timersOwned s -> timerFresh s ->
  timersOwned (run sigs s)
  /\ (size (countdownTimers (run sigs s)) <= 1)%nat
  /\ (forall now,
        countdownTimers (stopCountdown (run sigs s)) = ∅
        /\ countdownTimers (installCountdownInterval (stopCountdown (run sigs s)))
           = {[nextHandle (run sigs s)]}
        /\ timersOwned (startCountdown now (run sigs s))
        /\ (size (countdownTimers (startCountdown now (run sigs s))) <= 1)%nat)
  /\ (forall now,
        (exists rest,
           trace (startCountdown now (run sigs s))
           = trace (run sigs s)
             ++ match countdownInterval (run sigs s) with
                | Some h => [ClearInterval h]
                | None => []
                end
             ++ SetInterval (nextHandle (run sigs s)) :: rest
           /\ Forall (fun e => forall h, e <> SetInterval h) rest)
        /\ nextHandle (startCountdown now (run sigs s))
           = S (nextHandle (run sigs s))
        /\ (forall h, countdownInterval (run sigs s) = Some h ->
                      h ∉ countdownTimers (startCountdown now (run sigs s)))
        /\ (countdownInterval (startCountdown now (run sigs s))
             = Some (nextHandle (run sigs s))
             /\ countdownTimers (startCountdown now (run sigs s))
                = {[nextHandle (run sigs s)]}
            \/ countdownInterval (startCountdown now (run sigs s)) = None
               /\ countdownTimers (startCountdown now (run sigs s)) = ∅)
        /\ (forall a txt,
              find isActive (getEvents now (catalog (run sigs s))) = Some a ->
              countdownText (run sigs s) = Some txt ->
              timeLeft (endDate a) now <> 0 ->
              countdownInterval (startCountdown now (run sigs s))
              = Some (nextHandle (run sigs s))
              /\ countdownTimers (startCountdown now (run sigs s))
                 = {[nextHandle (run sigs s)]})).
Proof.
  intros H Hfr. destruct (run_sound sigs s (conj H Hfr)) as [Hr Hrf].
  set (r := run sigs s) in *.
  pose proof (stopCountdown_timers _ Hr) as Hstop.
  set (s2 := installCountdownInterval (stopCountdown r)).
  assert (countdownTimers s2 = {[nextHandle r]}) as Ht2.
  { subst s2. unfold installCountdownInterval. simpl. rewrite Hstop.
    rewrite stopCountdown_nextHandle. apply (left_id_L ∅ (∪)). }
  assert (countdownInterval s2 = Some (nextHandle r)) as Hi2.
  { subst s2. unfold installCountdownInterval. simpl.
    by rewrite stopCountdown_nextHandle. }
  assert (timersOwned s2) as Ho2.
  { apply timersOwned_install; [apply countdownInterval_stopCountdown|].
    by apply stopCountdown_keeps; try by_timers_writes. }
  split; [done|]. split; [by apply timersOwned_size|]. split.
  { intros now. split; [done|]. split; [exact Ht2|].
    split; [|apply timersOwned_size]; by apply startCountdown_timers. }
  intros now. unfold startCountdown. fold s2.
  destruct (updateCountdown_timer now s2 Ho2) as [[Hi Ht]|[Hi Ht]].
  - rewrite Hi2 in Hi. rewrite Ht2 in Ht.
    repeat split.
    + destruct (updateCountdown_trace now s2) as (rest & Hrest & Hno).
      exists rest. split; [|done]. rewrite Hrest. subst s2.
      cbn [trace emit installCountdownInterval].
      rewrite stopCountdown_trace, stopCountdown_nextHandle.
      by rewrite <- !app_assoc.
    + rewrite updateCountdown_nextHandle. subst s2. simpl.
      by rewrite stopCountdown_nextHandle.
    + intros h Hh. rewrite Ht. unfold timerFresh in Hrf. rewrite Hh in Hrf.
      apply not_elem_of_singleton. lia.
    + by left.
    + done.
    + done.
  - repeat split.
    + destruct (updateCountdown_trace now s2) as (rest & Hrest & Hno).
      exists rest. split; [|done]. rewrite Hrest. subst s2.
      cbn [trace emit installCountdownInterval].
      rewrite stopCountdown_trace, stopCountdown_nextHandle.
      by rewrite <- !app_assoc.
    + rewrite updateCountdown_nextHandle. subst s2. simpl.
      by rewrite stopCountdown_nextHandle.
    + intros h Hh. rewrite Ht. apply not_elem_of_empty.
    + by right.
    + destruct (updateCountdown_running now s2 a txt) as [Hi' _]; try done.
      * subst s2. cbn [catalog emit installCountdownInterval].
        by rewrite (proj1 (stopCountdown_page r)).
      * subst s2. cbn [countdownText emit installCountdownInterval].
        by rewrite (proj2 (stopCountdown_page r)).
      * congruence.
    + destruct (updateCountdown_running now s2 a txt) as [Hi' _]; try done.
      * subst s2. cbn [catalog emit installCountdownInterval].
        by rewrite (proj1 (stopCountdown_page r)).
      * subst s2. cbn [countdownText emit installCountdownInterval].
        by rewrite (proj2 (stopCountdown_page r)).
      * congruence.
Qed.

Lemma single_countdown_timer_witness :
  timersOwned freshPage /\ timerFresh freshPage
  /\ (size (countdownTimers (run restarts freshPage)) <= 1)%nat.
Proof.
  assert (timersOwned freshPage) as H by reflexivity.
  assert (timerFresh freshPage) as Hf by exact I.
  exact (conj H (conj Hf
           (proj1 (proj2 (single_countdown_timer freshPage restarts H Hf))))).
Defined.

(** ** The adjacent-pair rule visits every pair *)

Lemma capturePriceForActiveEvent_catalog now s :
  catalog (capturePriceForActiveEvent now s) = catalog s.
Proof.
  apply (capturePriceForActiveEvent_keeps (fun s' => catalog s' = catalog s));
    by intros.
Qed.

Lemma captureExpiredStep_extends now events e i s :
  extends s (captureExpiredStep now events e i s).
Proof. apply (captureExpiredStep_keeps (extends s)); by_extends_writes. Qed.

Lemma forEachFrom_captureExpired_extends now events l i s :
  extends s (forEachFrom (captureExpiredStep now events) i l s).
Proof.
  apply (forEachFrom_keeps (extends s)); [|apply extends_refl].
  intros x j s' H. eapply extends_trans; [exact H|].
  apply captureExpiredStep_extends.
Qed.

(** After one element of the pass whose predecessor is expired, its slug has
    a last-price entry. *)
Lemma captureExpiredStep_covers now events e m prev p s :
  currentPrice s = Some p ->
  events !! m = Some prev -> isExpired prev = true ->
  is_Some (eventLastPrice (captureExpiredStep now events e (S m) s) !! slug e).
Proof.
  intros Hp Hm He. unfold captureExpiredStep. rewrite Hm, He, Hp. simpl.
  destruct (has (eventLastPrice s) (slug e)) eqn:Hh; simpl.
  - by apply has_true.
  - exists p. eapply lookup_weaken; [|apply renderEventsTable_extends].
    simpl. apply lookup_insert_eq.
Qed.

(** The whole pass: every element whose predecessor in the list is expired
    ends with a last-price entry, wherever in the list the pair is. *)
Lemma forEachFrom_captureExpired_covers now events l :
  forall i s j x m prev p,
    currentPrice s = Some p ->
    l !! j = Some x -> (i + j = S m)%nat ->
    events !! m = Some prev -> isExpired prev = true ->
    is_Some (eventLastPrice
               (forEachFrom (captureExpiredStep now events) i l s) !! slug x).
Proof.
  induction l as [|a r IH]; intros i s j x m prev p Hp Hj Hi Hm He;
    [done|].
  simpl. destruct j as [|j'].
  - injection Hj as ->. rewrite Nat.add_0_r in Hi. subst i.
    destruct (captureExpiredStep_covers now events x m prev p s Hp Hm He)
      as [w Hw].
    exists w. eapply lookup_weaken; [exact Hw|].
    apply forEachFrom_captureExpired_extends.
  - apply (IH (S i) _ j' x m prev p); try done.
    + rewrite (ext_price _ _ (captureExpiredStep_extends now events a i s)).
      exact Hp.
    + lia.
Qed.

Lemma capturePriceForExpiredEvent_covers now s j m prev x p :
  currentPrice s = Some p ->
  getEvents now (catalog s) !! j = Some x -> j = S m ->
  getEvents now (catalog s) !! m = Some prev -> isExpired prev = true ->
  is_Some (eventLastPrice (capturePriceForExpiredEvent now s) !! slug x).
Proof.
  intros Hp Hj -> Hm He. unfold capturePriceForExpiredEvent. rewrite Hp.
  cbv zeta. unfold forEach.
  by eapply (forEachFrom_captureExpired_covers now _ _ 0%nat s (S m) x m prev p).
Qed.

(** C4.  With events E1 (expired), E2 (expired), E3 (active) and empty
    capture maps, handling one price tick with value V leaves
    lastPrice[E2] = V, lastPrice[E3] = V and priceToBeat[E3] = V: the
    adjacent-pair rule is applied to every pair of the list in the one
    pass, not only to the pair next to the active event. *)
Theorem multi_expiry_gap (now : Z) (u : PriceUpdate) (s : Platform)
    (e1 e2 e3 : EventDescriptor) :
  catalog s = [e1; e2; e3] ->
  deriveStatus now e1 = Expired ->
  deriveStatus now e2 = Expired ->
  deriveStatus now e3 = Active ->
  eventPriceToBeat s = ∅ ->
  eventLastPrice s = ∅ ->
  let s' := handlePriceUpdate now u s in
  eventLastPrice s' !! d_slug e2 = Some (value (payload u))
  /\ eventLastPrice s' !! d_slug e3 = Some (value (payload u))
  /\ eventPriceToBeat s' !! d_slug e3 = Some (value (payload u)).
Proof.
  intros Hc H1 H2 H3 Hb Hl. unfold handlePriceUpdate. cbv zeta.
  set (v := value (payload u)).
  set (s1 := setPrice v _ s).
  set (s2 := capturePriceForActiveEvent now s1).
  set (s3 := capturePriceForExpiredEvent now s2).
  pose proof (capturePriceForActiveEvent_extends now s1) as E12.
  pose proof (capturePriceForExpiredEvent_extends now s2) as E23.
  fold s2 in E12. fold s3 in E23.
  pose proof (extends_trans _ _ _ E12 E23) as E13.
  assert (getEvents now (catalog s1)
          = [mkEventDisplayData (d_slug e1) (d_title e1) Expired (endTime e1);
             mkEventDisplayData (d_slug e2) (d_title e2) Expired (endTime e2);
             mkEventDisplayData (d_slug e3) (d_title e3) Active (endTime e3)])
    as Hev by (simpl; rewrite Hc; simpl; by rewrite H1, H2, H3).
  assert (catalog s2 = catalog s1) as Hc2
    by apply capturePriceForActiveEvent_catalog.
  assert (currentPrice s2 = Some v) as Hp2 by by rewrite (ext_price _ _ E12).
  (* every entry written during the tick holds V *)
  assert (forall k w, eventLastPrice s3 !! k = Some w -> w = v) as HvL.
  { intros k w Hk. destruct (ext_last_new _ _ E13 k w Hk) as [Hs|Hs].
    - simpl in Hs. by rewrite Hl in Hs.
    - simpl in Hs. congruence. }
  assert (forall k w, eventPriceToBeat s3 !! k = Some w -> w = v) as HvB.
  { intros k w Hk. destruct (ext_toBeat_new _ _ E13 k w Hk) as [Hs|Hs].
    - simpl in Hs. by rewrite Hb in Hs.
    - simpl in Hs. congruence. }
  (* the pairs (E1, E2) and (E2, E3) are both served *)
  assert (is_Some (eventLastPrice s3 !! d_slug e2)) as [w2 Hw2].
  { apply (capturePriceForExpiredEvent_covers now s2 1 0
             (mkEventDisplayData (d_slug e1) (d_title e1) Expired (endTime e1))
             (mkEventDisplayData (d_slug e2) (d_title e2) Expired (endTime e2))
             v); try done; by rewrite Hc2, Hev. }
  assert (is_Some (eventLastPrice s3 !! d_slug e3)) as [w3 Hw3].
  { apply (capturePriceForExpiredEvent_covers now s2 2 1
             (mkEventDisplayData (d_slug e2) (d_title e2) Expired (endTime e2))
             (mkEventDisplayData (d_slug e3) (d_title e3) Active (endTime e3))
             v); try done; by rewrite Hc2, Hev. }
  (* the active event receives its price to beat *)
  assert (is_Some (eventPriceToBeat s2 !! d_slug e3)) as [w Hw].
  { subst s2. unfold capturePriceForActiveEvent.
    change (currentPrice s1) with (Some v). cbv zeta. rewrite Hev. simpl.
    assert (has (eventPriceToBeat s) (d_slug e3) = false) as ->.
    { unfold has. apply bool_decide_eq_false. rewrite Hb, lookup_empty.
      by intros [? ?]. }
    exists v. eapply lookup_weaken; [|apply renderActiveEvent_extends].
    simpl. apply lookup_insert_eq. }
  assert (eventPriceToBeat s3 !! d_slug e3 = Some w) as Hw'
    by (eapply lookup_weaken; [exact Hw|apply E23]).
  simpl.
  rewrite Hw2, Hw3, Hw'.
  by rewrite (HvL _ _ Hw2), (HvL _ _ Hw3), (HvB _ _ Hw').
Qed.

Lemma multi_expiry_gap_witness :
  let s' := handlePriceUpdate 1900000 (tickOf 1900000 6500000)
              (setCatalog [slotA; slotB; slotC] freshPage) in
  eventLastPrice s' !! d_slug slotB = Some (value (payload (tickOf 1900000 6500000)))
  /\ eventLastPrice s' !! d_slug slotC
     = Some (value (payload (tickOf 1900000 6500000)))
  /\ eventPriceToBeat s' !! d_slug slotC
     = Some (value (payload (tickOf 1900000 6500000))).
Proof.
  exact (multi_expiry_gap 1900000 (tickOf 1900000 6500000)
           (setCatalog [slotA; slotB; slotC] freshPage) slotA slotB slotC
           eq_refl eq_refl eq_refl eq_refl eq_refl eq_refl).
Defined.

(** ** Reading traces *)



Lemma forcedRefreshes_snoc t e :
  forcedRefreshes (t ++ [e])
  = (forcedRefreshes t + if decide (e = CallLoadEvents) then 1 else 0)%nat.
Proof.
  unfold forcedRefreshes. rewrite filter_app, length_app.
  rewrite filter_cons, filter_nil. by case_decide.
Qed.













(** ** The trace accounts for the capture maps *)










Lemma recorded_initial panel table cd :
  recorded (initialPlatform panel table cd).
Proof. done. Qed.

(** ** A completed refresh renders the table *)






(** ** Captures and their renders *)


(** The expiry handler of the countdown, fired in the last second of slot A:
    the last price of slot B is captured and nothing asks for the table. *)
Example expiry_capture_trace :
  trace (step 899500 (CountdownFire 1) running)
  = trace running
    ++ [WriteCountdown "00:00:00"; SetLastPrice "btc-b" 6500000;
        ClearInterval 1; CallLoadEvents].
Proof. vm_compute. reflexivity. Qed.




(** ** The countdown at expiry *)

Lemma stopCountdown_fields s :
  countdownText (stopCountdown s) = countdownText s
  /\ eventLastPrice (stopCountdown s) = eventLastPrice s
  /\ forcedRefreshes (trace (stopCountdown s)) = forcedRefreshes (trace s).
Proof.
  unfold stopCountdown. destruct (countdownInterval s); [|done].
  cbn [countdownText eventLastPrice trace emit clearCountdownInterval].
  rewrite forcedRefreshes_snoc. rewrite decide_False by done.
  repeat split. lia.
Qed.

Lemma formatCountdown_last_second endMs t :
  endMs - t < 1000 -> formatCountdown (timeLeft endMs t) = "00:00:00"%string.
Proof.
  intros H. unfold timeLeft, formatCountdown.
  assert ((endMs - t) / 1000 <= 0) by (apply Z.lt_succ_r; apply Z.div_lt_upper_bound; lia).
  destruct (Z.leb_spec (Z.max 0 ((endMs - t) / 1000)) 0); [done|lia].
Qed.

(** At the very instant an event ends it is no longer the active one; the
    countdown of an active event reaches zero during its last second. *)
Lemma expired_at_endTime d : deriveStatus (endTime d) d <> Active.
Proof.
  unfold deriveStatus. destruct (endTime d <? startTime d); [done|].
  by rewrite Z.ltb_irrefl.
Qed.

(** C5, as stated, fails: within the last second of slot A the expiry
    handling runs when the timer fires and again when the refresh it forced
    completes and the re-render restarts the countdown. *)
Lemma expiry_handled_again :
  ~ (forall (s : Platform) (sigs : list (Z * Signal)) (d : EventDescriptor),
       d ∈ catalog s ->
       Forall (fun x => deriveStatus x.1 d = Active
                        /\ timeLeft (endTime d) x.1 = 0) sigs ->
       (forcedRefreshes (trace (run sigs s))
        <= S (forcedRefreshes (trace s)))%nat).
Proof.
  intros H.
  specialize (H running
                [(899500, CountdownFire 1);
                 (899700, RefreshResolved [slotA; slotB; slotC])] slotA).
  assert (forcedRefreshes
            (trace (run [(899500, CountdownFire 1);
                         (899700, RefreshResolved [slotA; slotB; slotC])]
                      running)) = 2%nat) as H2 by (vm_compute; reflexivity).
  assert (forcedRefreshes (trace running) = 0%nat) as H0
    by (vm_compute; reflexivity).
  rewrite H2, H0 in H.
  assert (2 <= 1)%nat; [|lia].
  apply H.
  - assert (catalog running = [slotA; slotB; slotC]) as ->
      by (vm_compute; reflexivity).
    apply list_elem_of_here.
  - repeat constructor.
Qed.

(** C5, amended.  When the countdown is evaluated for the active event, it
    shows max(0, floor((endTime - now) / 1000)) seconds, which reads
    00:00:00 whenever endTime - now is below one second (zero included).
    While seconds remain nothing else happens.  When none remain, that one
    evaluation captures the last price of the next event if it has none and
    a price is known, forces exactly one catalog refresh, and leaves no
    countdown timer, so no further tick of the stopped cadence arrives. *)
Theorem countdown_expiry_handling (now : Z) (s : Platform)
    (a : EventDisplayData) (txt : string) :
  find isActive (getEvents now (catalog s)) = Some a ->
  countdownText s = Some txt ->
  timersOwned s ->
  let s' := updateCountdown now s in
  let remaining := Z.max 0 ((endDate a - now) / 1000) in
  countdownText s' = Some (formatCountdown remaining)
  /\ (forall endMs t, endMs - t = 0 ->
        formatCountdown (Z.max 0 ((endMs - t) / 1000)) = "00:00:00"%string)
  /\ (remaining <> 0 ->
      forcedRefreshes (trace s') = forcedRefreshes (trace s)
      /\ eventLastPrice s' = eventLastPrice s
      /\ countdownInterval s' = countdownInterval s
      /\ countdownTimers s' = countdownTimers s)
  /\ (remaining = 0 ->
      forcedRefreshes (trace s') = S (forcedRefreshes (trace s))
      /\ countdownInterval s' = None
      /\ countdownTimers s' = ∅
      /\ (forall h t, step t (CountdownFire h) s' = s')
      /\ (forall p next,
            currentPrice s = Some p ->
            arrayGet (getEvents now (catalog s))
              (findIndex isActive (getEvents now (catalog s)) + 1)
            = Some next ->
            eventLastPrice s' !! slug next
            = Some (default p (eventLastPrice s !! slug next)))).
Proof.
  intros Hfind Htxt Hown s' remaining.
  assert (remaining = timeLeft (endDate a) now) as Hrem by reflexivity.
  split; [|split].
  2: { intros endMs t H. apply (formatCountdown_last_second endMs t). lia. }
  - subst s'. unfold updateCountdown. rewrite Hfind, Htxt. cbv zeta.
    rewrite <- Hrem. destruct (remaining =? 0); [|done].
    cbn [loadEvents emit countdownText].
    rewrite (proj1 (stopCountdown_fields _)).
    cbn [currentPrice emit setCountdownText catalog eventLastPrice].
    destruct (currentPrice s); [|done]. rewrite Hfind.
    destruct (arrayGet _ _) as [next|]; [|done].
    by destruct (has (eventLastPrice s) (slug next)).
  - subst s'. unfold updateCountdown. rewrite Hfind, Htxt. cbv zeta.
    rewrite <- Hrem. destruct (Z.eqb_spec remaining 0) as [E|E].
    + split; [done|]. intros _.
      set (s2 := match currentPrice _ with Some _ => _ | None => _ end).
      assert (timersOwned s2) as Hown2.
      { subst s2. cbn [currentPrice emit setCountdownText catalog
                       eventLastPrice].
        destruct (currentPrice s); [|done]. rewrite Hfind.
        destruct (arrayGet _ _) as [next|]; [|done].
        by destruct (has (eventLastPrice s) (slug next)). }
      assert (forcedRefreshes (trace s2) = forcedRefreshes (trace s)) as Hf2.
      { subst s2. cbn [currentPrice emit setCountdownText catalog
                       eventLastPrice].
        destruct (currentPrice s);
          [|cbn [trace emit setCountdownText]; rewrite forcedRefreshes_snoc;
            rewrite decide_False by done; lia].
        rewrite Hfind.
        destruct (arrayGet _ _) as [next|];
          [|cbn [trace emit setCountdownText]; rewrite forcedRefreshes_snoc;
            rewrite decide_False by done; lia].
        destruct (has (eventLastPrice s) (slug next));
          cbn [trace emit setCountdownText setLastPrice];
          rewrite !forcedRefreshes_snoc; rewrite !decide_False by done; lia. }
      assert (countdownTimers (loadEvents (stopCountdown s2)) = ∅) as Ht
        by (cbn [loadEvents emit countdownTimers];
            by apply stopCountdown_timers).
      split; [|split; [|split; [|split]]].
      * cbn [loadEvents emit trace]. rewrite forcedRefreshes_snoc.
        rewrite decide_True by done.
        rewrite (proj2 (proj2 (stopCountdown_fields s2))), Hf2. lia.
      * cbn [loadEvents emit countdownInterval].
        apply countdownInterval_stopCountdown.
      * exact Ht.
      * intros h t. cbn [step]. rewrite Ht.
        rewrite bool_decide_eq_false_2; [done|]. apply not_elem_of_empty.
      * intros p next Hp Hnext. cbn [loadEvents emit eventLastPrice].
        rewrite (proj1 (proj2 (stopCountdown_fields s2))).
        subst s2. cbn [currentPrice emit setCountdownText catalog
                       eventLastPrice].
        rewrite Hp, Hfind, Hnext.
        destruct (has (eventLastPrice s) (slug next)) eqn:Hh.
        -- apply has_true in Hh as [w Hw].
           cbn [eventLastPrice emit setCountdownText]. by rewrite Hw.
        -- apply has_false in Hh.
           cbn [eventLastPrice emit setCountdownText setLastPrice].
           by rewrite lookup_insert_eq, Hh.
    + split; [|done]. intros _.
      cbn [trace emit setCountdownText eventLastPrice countdownInterval
           countdownTimers].
      rewrite forcedRefreshes_snoc. rewrite decide_False by done.
      repeat split. lia.
Qed.

Lemma countdown_expiry_handling_witness :
  let s' := updateCountdown 899500 running in
  find isActive (getEvents 899500 (catalog running))
  = Some (mkEventDisplayData "btc-a" "A" Active 900000)
  /\ countdownText running = Some "00:14:58"%string
  /\ timersOwned running
  /\ countdownText s' = Some "00:00:00"%string.
Proof.
  assert (find isActive (getEvents 899500 (catalog running))
          = Some (mkEventDisplayData "btc-a" "A" Active 900000)) as Hf
    by (vm_compute; reflexivity).
  assert (countdownText running = Some "00:14:58"%string) as Ht
    by (vm_compute; reflexivity).
  assert (timersOwned running) as Ho by (vm_compute; reflexivity).
  exact (conj Hf (conj Ht (conj Ho
           (proj1 (countdown_expiry_handling 899500 running _ _ Hf Ht Ho))))).
Defined.

(** * Further properties of the platform *)

(** ** The bounded price history *)

Lemma pushHistory_length pt h :
  length (pushHistory pt h)
  = if (maxHistorySize <? length h + 1)%nat then length h else S (length h).
Proof.
  unfold pushHistory. cbv zeta. rewrite length_app. simpl.
  destruct (maxHistorySize <? length h + 1)%nat eqn:E.
  - destruct h as [|x h']; simpl.
    + unfold maxHistorySize in E. discriminate.
    + rewrite length_app. simpl. lia.
  - rewrite length_app. simpl. lia.
Qed.

Lemma pushHistory_fifo pt h :
  (length h <= maxHistorySize)%nat ->
  pushHistory pt h = drop (length h + 1 - maxHistorySize) (h ++ [pt]).
Proof.
  intros Hl. unfold pushHistory. cbv zeta. rewrite length_app. simpl.
  destruct (Nat.ltb_spec maxHistorySize (length h + 1)) as [E|E].
  - replace (length h + 1 - maxHistorySize)%nat with 1%nat by lia.
    by destruct (h ++ [pt]).
  - replace (length h + 1 - maxHistorySize)%nat with 0%nat by lia. done.
Qed.

Lemma step_history_length now sig s :
  (length (priceHistory s) <= maxHistorySize)%nat ->
  (length (priceHistory (step now sig s)) <= maxHistorySize)%nat.
Proof.
  intros H. destruct (isTick sig) eqn:Ht.
  - destruct sig as [u| | | | | | |]; try discriminate.
    change (step now (PriceTick u) s) with (handlePriceUpdate now u s).
    rewrite (proj2 (handlePriceUpdate_price now u s)), pushHistory_length.
    destruct (Nat.ltb_spec maxHistorySize (length (priceHistory s) + 1)); lia.
  - by rewrite (ext_history _ _ (step_extends now sig s Ht)).
Qed.

(** X1.  The price history never holds more than [maxHistorySize] (100)
    entries: from a state within the bound every run of handlers stays within
    it.  A tick appends its point and, when that makes 101, drops exactly the
    oldest entry, so the history is always the most recent points in arrival
    order. *)
Theorem history_bounded_fifo (s : Platform) (sigs : list (Z * Signal)) :
  (length (priceHistory s) <= 100)%nat ->
  (length (priceHistory (run sigs s)) <= 100)%nat
  /\ (forall now u,
        priceHistory (step now (PriceTick u) s)
        = drop (length (priceHistory s) + 1 - 100)
            (priceHistory s ++ [pointOf u])).
Proof.
  intros H. split.
  - revert s H. induction sigs as [|[now sig] r IH]; intros s H; simpl.
    + done.
    + by apply IH, step_history_length.
  - intros now u.
    change (step now (PriceTick u) s) with (handlePriceUpdate now u s).
    rewrite (proj2 (handlePriceUpdate_price now u s)).
    by apply pushHistory_fifo.
Qed.

Lemma history_bounded_fifo_witness :
  (length (priceHistory freshPage) <= 100)%nat
  /\ (length (priceHistory (run restarts freshPage)) <= 100)%nat.
Proof.
  assert (length (priceHistory freshPage) <= 100)%nat as H by (simpl; lia).
  exact (conj H (proj1 (history_bounded_fifo freshPage restarts H))).
Defined.

(** The two most recent points sit at the end of the history, eviction or
    not. *)
Lemma pushHistory_twice p1 p2 h :
  exists h', pushHistory p2 (pushHistory p1 h) = h' ++ [p1; p2].
Proof.
  assert (exists h1, pushHistory p1 h = h1 ++ [p1]) as [h1 ->].
  { unfold pushHistory. cbv zeta.
    destruct (maxHistorySize <? length (h ++ [p1]))%nat eqn:E;
      [|by exists h].
    destruct h as [|x h0]; [discriminate|]. by exists h0. }
  unfold pushHistory. cbv zeta.
  destruct (maxHistorySize <? length ((h1 ++ [p1]) ++ [p2]))%nat eqn:E.
  - destruct h1 as [|x h0]; [discriminate|].
    exists h0. simpl. by rewrite <- app_assoc.
  - exists h1. by rewrite <- app_assoc.
Qed.

Lemma priceDisplay_two_last s h' p1 p2 v :
  currentPrice s = Some v ->
  priceHistory s = h' ++ [p1; p2] ->
  priceDisplay s
  = mkPriceDisplay (Some v) (Some (timestamp p2))
      (Some (if pp_value p1 <=? pp_value p2 then positive else negative)).
Proof.
  intros Hp Hh. unfold priceDisplay. cbv zeta. rewrite Hp, Hh.
  rewrite length_app. simpl length.
  replace (length h' + 2 - 1)%nat with (length h' + 1)%nat by lia.
  replace (length h' + 2 - 2)%nat with (length h' + 0)%nat by lia.
  rewrite !lookup_app_r by lia.
  replace (length h' + 1 - length h')%nat with 1%nat by lia.
  replace (length h' + 0 - length h')%nat with 0%nat by lia.
  destruct (Nat.ltb_spec 0 (length h' + 2)); [|lia].
  destruct (Nat.leb_spec 2 (length h' + 2)); [|lia].
  simpl. do 3 f_equal.
  destruct (Z.leb_spec 0 (pp_value p2 - pp_value p1)),
    (Z.leb_spec (pp_value p1) (pp_value p2)); try done; lia.
Qed.

(** X2.  After two price ticks with nothing but other signals between them,
    the price display shows the value and the timestamp of the second tick
    and the change class is positive exactly when the second value is not
    below the first, whatever the history held before (eviction included);
    after the first tick on an empty history no change is shown. *)
Theorem price_display_compares_last_two_ticks (s : Platform)
    (now1 now2 : Z) (u1 u2 : PriceUpdate) (between : list (Z * Signal)) :
  forallb (fun x => negb (isTick x.2)) between = true ->
  priceDisplay
    (handlePriceUpdate now2 u2 (run between (handlePriceUpdate now1 u1 s)))
  = mkPriceDisplay (Some (value (payload u2)))
      (Some (p_timestamp (payload u2)))
      (Some (if value (payload u1) <=? value (payload u2)
             then positive else negative))
  /\ (priceHistory s = [] ->
      changeClass (priceDisplay (handlePriceUpdate now1 u1 s)) = None).
Proof.
  intros Hb. split.
  - destruct (pushHistory_twice (pointOf u1) (pointOf u2) (priceHistory s))
      as [h' Hh].
    apply (priceDisplay_two_last _ h' (pointOf u1) (pointOf u2)).
    + apply handlePriceUpdate_price.
    + rewrite (proj2 (handlePriceUpdate_price now2 u2 _)).
      rewrite (ext_history _ _ (run_extends between _ Hb)).
      rewrite (proj2 (handlePriceUpdate_price now1 u1 s)). exact Hh.
  - intros He. unfold priceDisplay. cbv zeta.
    rewrite (proj2 (handlePriceUpdate_price now1 u1 s)), He. reflexivity.
Qed.

Lemma price_display_compares_last_two_ticks_witness :
  priceDisplay
    (handlePriceUpdate 3000 (tickOf 3000 6400000)
       (run [(2500, DisconnectClick None)]
          (handlePriceUpdate 2000 (tickOf 2000 6500000) freshPage)))
  = mkPriceDisplay (Some 6400000) (Some 3000) (Some negative).
Proof.
  exact (proj1 (price_display_compares_last_two_ticks freshPage 2000 3000
                  (tickOf 2000 6500000) (tickOf 3000 6400000)
                  [(2500, DisconnectClick None)] eq_refl)).
Defined.

(** ** What a tick and a refresh capture *)

Lemma extends_lookup_last s s' k p :
  extends s s' -> currentPrice s = Some p ->
  is_Some (eventLastPrice s' !! k) ->
  eventLastPrice s' !! k = Some (default p (eventLastPrice s !! k)).
Proof.
  intros E Hp [w Hw]. destruct (eventLastPrice s !! k) as [w0|] eqn:Hk; simpl.
  - eapply lookup_weaken; [exact Hk|apply E].
  - destruct (ext_last_new _ _ E k w Hw) as [H|H]; congruence.
Qed.

(** X3.  A price tick leaves the active event, if there is one, with a
    price-to-beat entry, on every page (whether or not the panel, the table
    or the countdown element exist): the entry it already had, or else the
    value of this tick. *)
Theorem tick_captures_price_to_beat (now : Z) (u : PriceUpdate) (s : Platform)
    (a : EventDisplayData) :
  find isActive (getEvents now (catalog s)) = Some a ->
  eventPriceToBeat (handlePriceUpdate now u s) !! slug a
  = Some (default (value (payload u)) (eventPriceToBeat s !! slug a)).
Proof.
  intros Hf. unfold handlePriceUpdate. cbv zeta.
  set (v := value (payload u)). set (s1 := setPrice v _ s).
  cbn [eventPriceToBeat emit].
  eapply lookup_weaken;
    [|apply (capturePriceForExpiredEvent_extends now
               (capturePriceForActiveEvent now s1))].
  unfold capturePriceForActiveEvent.
  change (currentPrice s1) with (Some v). cbv zeta.
  change (catalog s1) with (catalog s). rewrite Hf.
  change (eventPriceToBeat s1) with (eventPriceToBeat s).
  destruct (has (eventPriceToBeat s) (slug a)) eqn:Hh.
  - apply has_true in Hh as [w Hw]. by rewrite Hw.
  - apply has_false in Hh. rewrite Hh. simpl.
    eapply lookup_weaken; [|apply renderActiveEvent_extends].
    cbn [eventPriceToBeat emit setPriceToBeat]. apply lookup_insert_eq.
Qed.

Lemma tick_captures_price_to_beat_witness :
  let s := setCatalog [slotA; slotB; slotC] (initialPlatform false false None) in
  find isActive (getEvents 1000 (catalog s))
  = Some (mkEventDisplayData "btc-a" "A" Active 900000)
  /\ eventPriceToBeat (handlePriceUpdate 1000 (tickOf 1000 6500000) s)
       !! "btc-a"%string = Some 6500000.
Proof.
  intros s.
  assert (find isActive (getEvents 1000 (catalog s))
          = Some (mkEventDisplayData "btc-a" "A" Active 900000)) as Hf
    by reflexivity.
  exact (conj Hf (tick_captures_price_to_beat 1000 (tickOf 1000 6500000) s
                    _ Hf)).
Defined.

Lemma updateLastStep_extends events e i s :
  extends s (updateLastStep events e i s).
Proof. apply (updateLastStep_keeps (extends s)); by_extends_writes. Qed.

Lemma forEachFrom_updateLast_extends events l i s :
  extends s (forEachFrom (updateLastStep events) i l s).
Proof.
  apply (forEachFrom_keeps (extends s)); [|apply extends_refl].
  intros x j s' H. eapply extends_trans; [exact H|].
  apply updateLastStep_extends.
Qed.

Lemma forEachFrom_updateLast_covers events l :
  forall i s j x m prev p,
    currentPrice s = Some p ->
    l !! j = Some x -> (i + j = S m)%nat ->
    events !! m = Some prev -> isExpired prev = true ->
    is_Some (eventLastPrice
               (forEachFrom (updateLastStep events) i l s) !! slug x).
Proof.
  induction l as [|a r IH]; intros i s j x m prev p Hp Hj Hi Hm He;
    [done|].
  simpl. destruct j as [|j'].
  - injection Hj as ->. rewrite Nat.add_0_r in Hi. subst i.
    assert (is_Some (eventLastPrice (updateLastStep events x (S m) s)
                       !! slug x)) as [w Hw].
    { unfold updateLastStep. rewrite Hm, He, Hp. simpl.
      destruct (has (eventLastPrice s) (slug x)) eqn:Hh; simpl.
      - by apply has_true.
      - exists p. cbn [eventLastPrice emit setLastPrice].
        apply lookup_insert_eq. }
    exists w. eapply lookup_weaken; [exact Hw|].
    apply forEachFrom_updateLast_extends.
  - apply (IH (S i) _ j' x m prev p); try done.
    + rewrite (ext_price _ _ (updateLastStep_extends events a i s)).
      exact Hp.
    + lia.
Qed.

Lemma updateLastPrices_covers now s j prev x p :
  currentPrice s = Some p ->
  getEvents now (catalog s) !! j = Some prev -> isExpired prev = true ->
  getEvents now (catalog s) !! S j = Some x ->
  is_Some (eventLastPrice (updateLastPrices now s) !! slug x).
Proof.
  intros Hp Hm He Hj. unfold updateLastPrices. rewrite Hp.
  cbv zeta. unfold forEach.
  by eapply (forEachFrom_updateLast_covers _ _ 0%nat s (S j) x j prev p).
Qed.

(** X4.  When a catalog refresh completes while a price is known, every
    event of the fetched list that follows an expired event ends with a
    last-price entry, wherever in the list the pair is and on every page: the
    entry it already had, or else the latest price.  The same holds on the
    kept list when the refresh failed and placeholder timestamps exist. *)
Theorem refresh_serves_every_pair (now : Z) (s : Platform) (p : Z)
    (fetched : list EventDescriptor) (timestamps : nat) :
  currentPrice s = Some p ->
  (forall j prev x,
     getEvents now fetched !! j = Some prev -> isExpired prev = true ->
     getEvents now fetched !! S j = Some x ->
     eventLastPrice (loadEventsResolved now fetched s) !! slug x
     = Some (default p (eventLastPrice s !! slug x)))
  /\ (forall j prev x,
        (0 < timestamps)%nat ->
        getEvents now (catalog s) !! j = Some prev -> isExpired prev = true ->
        getEvents now (catalog s) !! S j = Some x ->
        eventLastPrice (loadEventsRejected now timestamps s) !! slug x
        = Some (default p (eventLastPrice s !! slug x))).
Proof.
  intros Hp. split.
  - intros j prev x Hm He Hj.
    assert (extends (setCatalog fetched s) (loadEventsResolved now fetched s))
      as E.
    { unfold loadEventsResolved.
      eapply extends_trans; [apply updateLastPrices_extends|].
      apply renderEventsTable_extends. }
    apply (extends_lookup_last (setCatalog fetched s)); try done.
    destruct (updateLastPrices_covers now (setCatalog fetched s) j prev x p
                Hp Hm He Hj) as [w Hw].
    exists w. unfold loadEventsResolved.
    eapply lookup_weaken; [exact Hw|apply renderEventsTable_extends].
  - intros j prev x Ht Hm He Hj.
    apply (extends_lookup_last s); try done;
      [apply loadEventsRejected_extends|].
    unfold loadEventsRejected.
    destruct (Nat.ltb_spec 0 timestamps) as [_|?]; [|lia].
    destruct (updateLastPrices_covers now s j prev x p Hp Hm He Hj)
      as [w Hw].
    exists w. eapply lookup_weaken; [exact Hw|apply renderEventsTable_extends].
Qed.

Lemma refresh_serves_every_pair_witness :
  let s := handlePriceUpdate 500 (tickOf 500 6500000)
             (initialPlatform false false None) in
  currentPrice s = Some 6500000
  /\ eventLastPrice
       (loadEventsResolved 1900000 [slotA; slotB; slotC] s) !! "btc-b"%string
     = Some 6500000.
Proof.
  intros s.
  assert (currentPrice s = Some 6500000) as Hp by reflexivity.
  exact (conj Hp
           (proj1 (refresh_serves_every_pair 1900000 s 6500000
                     [slotA; slotB; slotC] 0 Hp) 0%nat
              (mkEventDisplayData "btc-a" "A" Expired 900000)
              (mkEventDisplayData "btc-b" "B" Expired 1800000)
              eq_refl eq_refl eq_refl)).
Defined.

(** ** Where captured values come from *)

Lemma handlePriceUpdate_extends_after now u s :
  extends (setPrice (value (payload u))
             (pushHistory (pointOf u) (priceHistory s)) s)
    (handlePriceUpdate now u s).
Proof.
  unfold handlePriceUpdate. cbv zeta. apply extends_emit; [done|].
  eapply extends_trans; [apply capturePriceForActiveEvent_extends|].
  apply capturePriceForExpiredEvent_extends.
Qed.

Lemma run_provenance sigs :
  forall s,
    (forall k w, eventPriceToBeat (run sigs s) !! k = Some w ->
       eventPriceToBeat s !! k = Some w \/ currentPrice s = Some w
       \/ w ∈ deliveredPrices sigs)
    /\ (forall k w, eventLastPrice (run sigs s) !! k = Some w ->
          eventLastPrice s !! k = Some w \/ currentPrice s = Some w
          \/ w ∈ deliveredPrices sigs)
    /\ (forall w, currentPrice (run sigs s) = Some w ->
          currentPrice s = Some w \/ w ∈ deliveredPrices sigs).
Proof.
  induction sigs as [|[now sig] r IH]; intros s.
  - simpl. repeat split; auto.
  - destruct (IH (step now sig s)) as (IHb & IHl & IHp).
    destruct (isTick sig) eqn:Ht.
    + destruct sig as [u| | | | | | |]; try discriminate.
      change (step now (PriceTick u) s) with (handlePriceUpdate now u s) in *.
      pose proof (handlePriceUpdate_extends_after now u s) as E.
      assert (deliveredPrices ((now, PriceTick u) :: r)
              = value (payload u) :: deliveredPrices r) as -> by reflexivity.
      assert (currentPrice (handlePriceUpdate now u s)
              = Some (value (payload u))) as Hp
        by apply handlePriceUpdate_price.
      cbn [run]. change (step now (PriceTick u) s)
        with (handlePriceUpdate now u s).
      repeat split.
      * intros k w Hk. destruct (IHb k w Hk) as [H|[H|H]].
        -- destruct (ext_toBeat_new _ _ E k w H) as [H'|H']; [by left|].
           right; right. injection H' as <-. apply list_elem_of_here.
        -- right; right. rewrite Hp in H. injection H as <-.
           apply list_elem_of_here.
        -- right; right. by apply list_elem_of_further.
      * intros k w Hk. destruct (IHl k w Hk) as [H|[H|H]].
        -- destruct (ext_last_new _ _ E k w H) as [H'|H']; [by left|].
           right; right. injection H' as <-. apply list_elem_of_here.
        -- right; right. rewrite Hp in H. injection H as <-.
           apply list_elem_of_here.
        -- right; right. by apply list_elem_of_further.
      * intros w Hw. destruct (IHp w Hw) as [H|H].
        -- right. rewrite Hp in H. injection H as <-.
           apply list_elem_of_here.
        -- right. by apply list_elem_of_further.
    + pose proof (step_extends now sig s Ht) as E.
      assert (deliveredPrices ((now, sig) :: r) = deliveredPrices r) as ->
        by (unfold deliveredPrices; simpl; by destruct sig).
      cbn [run]. repeat split.
      * intros k w Hk. destruct (IHb k w Hk) as [H|[H|H]]; auto.
        -- destruct (ext_toBeat_new _ _ E k w H); auto.
        -- rewrite (ext_price _ _ E) in H. auto.
      * intros k w Hk. destruct (IHl k w Hk) as [H|[H|H]]; auto.
        -- destruct (ext_last_new _ _ E k w H); auto.
        -- rewrite (ext_price _ _ E) in H. auto.
      * intros w Hw. destruct (IHp w Hw) as [H|H]; auto.
        rewrite (ext_price _ _ E) in H. auto.
Qed.

(** X5.  Captured values are never invented: after any run of handlers from
    the freshly constructed object, every value stored in either capture map
    is the value of one of the price ticks of that run. *)
Theorem captured_values_were_delivered (panel table : bool)
    (countdown : option string) (sigs : list (Z * Signal)) (k : string)
    (w : Z) :
  eventPriceToBeat (run sigs (initialPlatform panel table countdown)) !! k
    = Some w
  \/ eventLastPrice (run sigs (initialPlatform panel table countdown)) !! k
     = Some w ->
  w ∈ deliveredPrices sigs.
Proof.
  destruct (run_provenance sigs (initialPlatform panel table countdown))
    as (Hb & Hl & _).
  intros [H|H].
  - destruct (Hb k w H) as [H'|[H'|H']]; [|discriminate|done].
    simpl in H'. by rewrite lookup_empty in H'.
  - destruct (Hl k w H) as [H'|[H'|H']]; [|discriminate|done].
    simpl in H'. by rewrite lookup_empty in H'.
Qed.

Lemma captured_values_were_delivered_witness :
  eventPriceToBeat
    (run [(1000, EventsUpdated [slotA; slotB; slotC]);
          (2000, PriceTick (tickOf 2000 6500000))]
       (initialPlatform true true None)) !! "btc-a"%string = Some 6500000
  /\ 6500000 ∈ deliveredPrices
                 [(1000, EventsUpdated [slotA; slotB; slotC]);
                  (2000, PriceTick (tickOf 2000 6500000))].
Proof.
  assert (eventPriceToBeat
            (run [(1000, EventsUpdated [slotA; slotB; slotC]);
                  (2000, PriceTick (tickOf 2000 6500000))]
               (initialPlatform true true None)) !! "btc-a"%string
          = Some 6500000) as H by (vm_compute; reflexivity).
  exact (conj H (captured_values_were_delivered true true None _ "btc-a"
                   6500000 (or_introl H))).
Defined.

(** ** The capture rules are idempotent *)

Lemma has_lookup_Some (m : gmap string Z) k w : m !! k = Some w -> has m k = true.
Proof. intros H. unfold has. apply bool_decide_eq_true. by exists w. Qed.

Lemma capturePriceForExpiredEvent_catalog now s :
  catalog (capturePriceForExpiredEvent now s) = catalog s.
Proof.
  apply (capturePriceForExpiredEvent_keeps (fun s' => catalog s' = catalog s));
    by intros.
Qed.

Lemma updateLastPrices_catalog now s :
  catalog (updateLastPrices now s) = catalog s.
Proof.
  apply (updateLastPrices_keeps (fun s' => catalog s' = catalog s));
    by intros.
Qed.

(** A pass over a list in which every event after an expired one already has
    its entry changes nothing. *)
Lemma forEachFrom_served {St : Type} (f : EventDisplayData -> nat -> St -> St)
    (events : list EventDisplayData) (s : St) :
  (forall x, f x 0%nat s = s) ->
  (forall j prev x,
     events !! j = Some prev -> events !! S j = Some x -> f x (S j) s = s) ->
  forall l i, l = drop i events -> forEachFrom f i l s = s.
Proof.
  intros H0 HS l. induction l as [|x r IH]; intros i Hl; [done|].
  simpl.
  assert (events !! i = Some x) as Hi.
  { pose proof (lookup_drop events i 0) as Hd.
    rewrite <- Hl, Nat.add_0_r in Hd. by rewrite <- Hd. }
  assert (r = drop (S i) events) as Hr.
  { pose proof (drop_drop events 1 i) as Hd.
    rewrite <- Hl, Nat.add_1_r in Hd. by rewrite <- Hd. }
  assert (f x i s = s) as ->.
  { destruct i as [|j]; [apply H0|].
    destruct (lookup_lt_is_Some_2 events j) as [prev Hp].
    { apply lookup_lt_Some in Hi. lia. }
    by apply (HS j prev x). }
  by apply IH.
Qed.

(** X6.  Each capture rule is idempotent at a fixed instant: running it a
    second time right after the first changes nothing at all, neither the
    maps nor the page (no second re-render). *)
Theorem capture_rules_idempotent (now : Z) (s : Platform) :
  capturePriceForActiveEvent now (capturePriceForActiveEvent now s)
  = capturePriceForActiveEvent now s
  /\ capturePriceForExpiredEvent now (capturePriceForExpiredEvent now s)
     = capturePriceForExpiredEvent now s
  /\ updateLastPrices now (updateLastPrices now s) = updateLastPrices now s.
Proof.
  split; [|split].
  - pose proof (capturePriceForActiveEvent_extends now s) as E.
    pose proof (capturePriceForActiveEvent_catalog now s) as Hc.
    set (s' := capturePriceForActiveEvent now s) in *.
    destruct (currentPrice s) as [p|] eqn:Hp.
    2: { subst s'. unfold capturePriceForActiveEvent. rewrite Hp.
         unfold capturePriceForActiveEvent. by rewrite Hp. }
    destruct (find isActive (getEvents now (catalog s))) as [a|] eqn:Hf.
    2: { subst s'. unfold capturePriceForActiveEvent. rewrite Hp. cbv zeta.
         rewrite Hf. unfold capturePriceForActiveEvent. rewrite Hp.
         cbv zeta. by rewrite Hf. }
    assert (has (eventPriceToBeat s') (slug a) = true) as Hh.
    { subst s'. unfold capturePriceForActiveEvent. rewrite Hp. cbv zeta.
      rewrite Hf.
      destruct (has (eventPriceToBeat s) (slug a)) eqn:Hh; [done|].
      apply (has_lookup_Some _ _ p).
      eapply lookup_weaken; [|apply renderActiveEvent_extends].
      cbn [eventPriceToBeat emit setPriceToBeat]. apply lookup_insert_eq. }
    unfold capturePriceForActiveEvent at 1.
    rewrite (ext_price _ _ E), Hp. cbv zeta. by rewrite Hc, Hf, Hh.
  - pose proof (capturePriceForExpiredEvent_extends now s) as E.
    pose proof (capturePriceForExpiredEvent_catalog now s) as Hc.
    destruct (currentPrice s) as [p|] eqn:Hp.
    2: { unfold capturePriceForExpiredEvent. rewrite Hp.
         unfold capturePriceForExpiredEvent. by rewrite Hp. }
    assert (forall j prev x,
              getEvents now (catalog s) !! j = Some prev ->
              getEvents now (catalog s) !! S j = Some x ->
              isExpired prev = true ->
              has (eventLastPrice (capturePriceForExpiredEvent now s))
                (slug x) = true) as Hcov.
    { intros j prev x Hj Hx He.
      destruct (capturePriceForExpiredEvent_covers now s (S j) j prev x p)
        as [w Hw]; try done.
      by apply (has_lookup_Some _ _ w). }
    set (s' := capturePriceForExpiredEvent now s) in *.
    unfold capturePriceForExpiredEvent at 1.
    rewrite (ext_price _ _ E), Hp. cbv zeta. rewrite Hc. unfold forEach.
    apply (forEachFrom_served _ (getEvents now (catalog s))); [done| |done].
    intros j prev x Hj Hx. unfold captureExpiredStep. rewrite Hj.
    destruct (isExpired prev) eqn:He; [|done].
    by rewrite (Hcov j prev x Hj Hx He).
  - pose proof (updateLastPrices_extends now s) as E.
    pose proof (updateLastPrices_catalog now s) as Hc.
    destruct (currentPrice s) as [p|] eqn:Hp.
    2: { unfold updateLastPrices. rewrite Hp.
         unfold updateLastPrices. by rewrite Hp. }
    assert (forall j prev x,
              getEvents now (catalog s) !! j = Some prev ->
              getEvents now (catalog s) !! S j = Some x ->
              isExpired prev = true ->
              has (eventLastPrice (updateLastPrices now s)) (slug x) = true)
      as Hcov.
    { intros j prev x Hj Hx He.
      destruct (updateLastPrices_covers now s j prev x p) as [w Hw];
        try done.
      by apply (has_lookup_Some _ _ w). }
    set (s' := updateLastPrices now s) in *.
    unfold updateLastPrices at 1.
    rewrite (ext_price _ _ E), Hp. cbv zeta. rewrite Hc. unfold forEach.
    apply (forEachFrom_served _ (getEvents now (catalog s))); [done| |done].
    intros j prev x Hj Hx. unfold updateLastStep. rewrite Hj.
    destruct (isExpired prev) eqn:He; [|done].
    by rewrite (Hcov j prev x Hj Hx He).
Qed.

(** ** The countdown follows the active event *)

Lemma stopCountdown_frame s :
  eventPriceToBeat (stopCountdown s) = eventPriceToBeat s
  /\ eventLastPrice (stopCountdown s) = eventLastPrice s
  /\ currentPrice (stopCountdown s) = currentPrice s
  /\ catalog (stopCountdown s) = catalog s
  /\ countdownText (stopCountdown s) = countdownText s
  /\ nextHandle (stopCountdown s) = nextHandle s
  /\ panelPresent (stopCountdown s) = panelPresent s.
Proof. unfold stopCountdown. by destruct (countdownInterval s). Qed.

(** X7.  Rendering the active-event panel while no event is active leaves
    the countdown idle: the panel shows the empty state, no countdown timer
    is live or remembered, the countdown element is gone, and neither capture
    map changes. *)
Theorem render_without_active_event (now : Z) (s : Platform) :
  find isActive (getEvents now (catalog s)) = None ->
  panelPresent s = true ->
  timersOwned s ->
  let s' := renderActiveEvent now s in
  last (trace s') = Some (WriteActivePanel None)
  /\ countdownInterval s' = None
  /\ countdownTimers s' = ∅
  /\ countdownText s' = None
  /\ eventPriceToBeat s' = eventPriceToBeat s
  /\ eventLastPrice s' = eventLastPrice s.
Proof.
  intros Hf Hp Hown s'. subst s'. unfold renderActiveEvent. cbv zeta.
  cbn [panelPresent catalog emit]. rewrite Hp, Hf. cbn [negb].
  set (s1 := emit CallRenderActiveEvent s).
  destruct (stopCountdown_frame s1) as (Hb & Hl & _).
  repeat split.
  - cbn [trace emit]. apply last_snoc.
  - cbn [countdownInterval emit setCountdownText].
    apply countdownInterval_stopCountdown.
  - cbn [countdownTimers emit setCountdownText].
    by apply stopCountdown_timers.
  - cbn [eventPriceToBeat emit setCountdownText]. by rewrite Hb.
  - cbn [eventLastPrice emit setCountdownText]. by rewrite Hl.
Qed.

Lemma render_without_active_event_witness :
  let s := run [(1000, EventsUpdated [slotA])] freshPage in
  find isActive (getEvents 950000 (catalog s)) = None
  /\ panelPresent s = true
  /\ timersOwned s
  /\ countdownTimers s = {[0%nat]}
  /\ countdownTimers (renderActiveEvent 950000 s) = ∅.
Proof.
  intros s.
  assert (find isActive (getEvents 950000 (catalog s)) = None) as Hf
    by reflexivity.
  assert (panelPresent s = true) as Hp by reflexivity.
  assert (timersOwned s) as Ho by (vm_compute; reflexivity).
  assert (countdownTimers s = {[0%nat]}) as Ht by (vm_compute; reflexivity).
  exact (conj Hf (conj Hp (conj Ho (conj Ht
           (proj1 (proj2 (proj2
              (render_without_active_event 950000 s Hf Hp Ho)))))))).
Defined.

(** X8.  Rendering the active-event panel while an event is active captures
    its price to beat if none is stored and a price is known, shows the
    remaining time, and, unless that time is already zero, leaves exactly one
    countdown timer running, the one just installed. *)
Theorem render_with_active_event (now : Z) (s : Platform)
    (a : EventDisplayData) :
  find isActive (getEvents now (catalog s)) = Some a ->
  panelPresent s = true ->
  timersOwned s ->
  let s' := renderActiveEvent now s in
  let remaining := Z.max 0 ((endDate a - now) / 1000) in
  eventPriceToBeat s' !! slug a
  = match eventPriceToBeat s !! slug a with
    | Some v => Some v
    | None => currentPrice s
    end
  /\ countdownText s' = Some (formatCountdown remaining)
  /\ (remaining <> 0 ->
      countdownInterval s' = Some (nextHandle s)
      /\ countdownTimers s' = {[nextHandle s]})
  /\ (remaining = 0 -> countdownInterval s' = None /\ countdownTimers s' = ∅).
Proof.
  intros Hf Hp Hown s' remaining.
  assert (remaining = timeLeft (endDate a) now) as Hrem by reflexivity.
  subst s'. unfold renderActiveEvent. cbv zeta.
  cbn [panelPresent catalog emit eventPriceToBeat currentPrice].
  rewrite Hp, Hf. cbn [negb].
  set (s1 := match eventPriceToBeat s !! slug a with
             | Some _ => emit CallRenderActiveEvent s
             | None => _
             end).
  assert (eventPriceToBeat s1 !! slug a
          = match eventPriceToBeat s !! slug a with
            | Some v => Some v
            | None => currentPrice s
            end
          /\ catalog s1 = catalog s /\ timersOwned s1
          /\ nextHandle s1 = nextHandle s) as (Hb1 & Hc1 & Ho1 & Hn1).
  { subst s1. destruct (eventPriceToBeat s !! slug a) eqn:Hk; [done|].
    destruct (currentPrice s); [|done].
    cbn [eventPriceToBeat emit setPriceToBeat]. by rewrite lookup_insert_eq. }
  set (s2 := emit (WriteActivePanel _) (setCountdownText _ s1)).
  unfold startCountdown.
  set (s3 := installCountdownInterval (stopCountdown s2)).
  destruct (stopCountdown_frame s2) as (Hb & _ & _ & Hc & Ht & Hn & _).
  assert (timersOwned s3) as Ho3.
  { apply timersOwned_install; [apply countdownInterval_stopCountdown|].
    by apply stopCountdown_keeps; try by_timers_writes. }
  assert (countdownTimers s3 = {[nextHandle s]}) as Ht3.
  { subst s3. cbn [countdownTimers emit installCountdownInterval].
    rewrite (stopCountdown_timers s2) by done.
    rewrite Hn. subst s2. cbn [nextHandle emit setCountdownText].
    rewrite Hn1. apply (left_id_L ∅ (∪)). }
  assert (countdownInterval s3 = Some (nextHandle s)) as Hi3.
  { subst s3. cbn [countdownInterval emit installCountdownInterval].
    rewrite Hn. subst s2. cbn [nextHandle emit setCountdownText].
    by rewrite Hn1. }
  assert (find isActive (getEvents now (catalog s3)) = Some a) as Hf3.
  { subst s3. cbn [catalog emit installCountdownInterval]. rewrite Hc.
    subst s2. cbn [catalog emit setCountdownText]. by rewrite Hc1. }
  assert (countdownText s3 = Some "--:--:--"%string) as Htx3.
  { subst s3. cbn [countdownText emit installCountdownInterval]. by rewrite Ht. }
  assert (eventPriceToBeat s3 = eventPriceToBeat s1) as Hb3.
  { subst s3. cbn [eventPriceToBeat emit installCountdownInterval].
    by rewrite Hb. }
  pose proof (updateCountdown_extends now s3) as E.
  split.
  { destruct (eventPriceToBeat (updateCountdown now s3) !! slug a) as [w|]
      eqn:Hw.
    - assert (eventPriceToBeat
                (updateCountdown now s3) = eventPriceToBeat s3) as Heq.
      { apply (updateCountdown_keeps
                 (fun s' => eventPriceToBeat s' = eventPriceToBeat s3));
          by intros. }
      by rewrite <- Hb1, <- Hb3, <- Heq.
    - rewrite <- Hb1, <- Hb3. symmetry.
      eapply lookup_weaken_None; [exact Hw|apply E]. }
  unfold updateCountdown. rewrite Hf3, Htx3. cbv zeta. rewrite <- Hrem.
  destruct (Z.eqb_spec remaining 0) as [E0|E0].
  - split; [|split; [done|]].
    + cbn [countdownText loadEvents emit].
      rewrite (proj1 (stopCountdown_fields _)).
      cbn [currentPrice emit setCountdownText catalog eventLastPrice].
      destruct (currentPrice s3); [|done]. rewrite Hf3.
      destruct (arrayGet _ _) as [next|]; [|done].
      by destruct (has (eventLastPrice s3) (slug next)).
    + intros _. split.
      * cbn [countdownInterval loadEvents emit].
        apply countdownInterval_stopCountdown.
      * cbn [countdownTimers loadEvents emit]. apply stopCountdown_timers.
        cbn [currentPrice emit setCountdownText catalog eventLastPrice].
        destruct (currentPrice s3); [|done]. rewrite Hf3.
        destruct (arrayGet _ _) as [next|]; [|done].
        by destruct (has (eventLastPrice s3) (slug next)).
  - split; [done|]. split; [|done]. intros _.
    cbn [countdownInterval countdownTimers emit setCountdownText].
    by rewrite Hi3, Ht3.
Qed.

Lemma render_with_active_event_witness :
  let s := setCatalog [slotA; slotB; slotC] freshPage in
  find isActive (getEvents 1000 (catalog s))
  = Some (mkEventDisplayData "btc-a" "A" Active 900000)
  /\ panelPresent s = true
  /\ timersOwned s
  /\ countdownText (renderActiveEvent 1000 s) = Some "00:14:59"%string.
Proof.
  intros s.
  assert (find isActive (getEvents 1000 (catalog s))
          = Some (mkEventDisplayData "btc-a" "A" Active 900000)) as Hf
    by reflexivity.
  assert (panelPresent s = true) as Hp by reflexivity.
  assert (timersOwned s) as Ho by reflexivity.
  exact (conj Hf (conj Hp (conj Ho
           (proj1 (proj2 (render_with_active_event 1000 s _ Hf Hp Ho)))))).
Defined.

(** ** The panel formats the stored price to beat *)

Lemma shownList_snoc t e :
  shownList (t ++ [e])
  = shownList t ++ match e with
                   | WriteActivePanel (Some x) => [x]
                   | _ => []
                   end.
Proof.
  unfold shownList. rewrite omap_app. f_equal.
  destruct e as [| | | |[x|]| | | | | | | | |]; reflexivity.
Qed.

Lemma panelHonest_weaken s s' :
  panelHonest s -> shownList (trace s') = shownList (trace s) ->
  eventPriceToBeat s ⊆ eventPriceToBeat s' -> panelHonest s'.
Proof.
  unfold panelHonest. intros H -> Hsub.
  eapply Forall_impl; [exact H|]. intros [k d]; simpl.
  destruct (displayedValue d); [|done].
  intros Hk. by eapply lookup_weaken.
Qed.

Ltac shown_norm :=
  cbn [trace emit loadEvents setCountdownText setLastPrice setPriceToBeat
       clearCountdownInterval installCountdownInterval setPrice setStatus
       setCatalog];
  rewrite ?shownList_snoc, ?app_nil_r.

Lemma stopCountdown_shown s :
  shownList (trace (stopCountdown s)) = shownList (trace s).
Proof.
  unfold stopCountdown. destruct (countdownInterval s); [|done].
  by shown_norm.
Qed.

Lemma updateCountdown_shown now s :
  shownList (trace (updateCountdown now s)) = shownList (trace s).
Proof.
  unfold updateCountdown.
  destruct (find isActive (getEvents now (catalog s))) as [a|];
    [|apply stopCountdown_shown].
  destruct (countdownText s) as [txt|]; [|apply stopCountdown_shown].
  cbv zeta. destruct (timeLeft (endDate a) now =? 0); [|by shown_norm].
  unfold loadEvents. shown_norm. rewrite stopCountdown_shown.
  cbn [currentPrice emit setCountdownText catalog eventLastPrice].
  destruct (currentPrice s); [|by shown_norm].
  destruct (find isActive (getEvents now (catalog s))); [|by shown_norm].
  destruct (arrayGet _ _) as [next|]; [|by shown_norm].
  destruct (has (eventLastPrice s) (slug next)); by shown_norm.
Qed.

Lemma startCountdown_shown now s :
  shownList (trace (startCountdown now s)) = shownList (trace s).
Proof.
  unfold startCountdown. rewrite updateCountdown_shown. shown_norm.
  apply stopCountdown_shown.
Qed.

Lemma panelHonest_emit e s :
  (forall x, e <> WriteActivePanel (Some x)) ->
  panelHonest s -> panelHonest (emit e s).
Proof.
  intros He H. apply (panelHonest_weaken s); [done| |done].
  shown_norm. destruct e as [| | | |[x|]| | | | | | | | |];
    rewrite ?app_nil_r; try done.
  by destruct (He x).
Qed.

Lemma panelHonest_toBeat k v s :
  eventPriceToBeat s !! k = None ->
  panelHonest s -> panelHonest (setPriceToBeat k v s).
Proof.
  intros Hk H. apply (panelHonest_weaken s); [done|by shown_norm|].
  cbn [eventPriceToBeat emit setPriceToBeat]. by apply insert_subseteq.
Qed.

Lemma panelHonest_last k v s :
  panelHonest s -> panelHonest (setLastPrice k v s).
Proof. intros H. apply (panelHonest_weaken s); [done|by shown_norm|done]. Qed.

Lemma renderActiveEvent_honest now s :
  panelHonest s -> panelHonest (renderActiveEvent now s).
Proof.
  intros H. unfold renderActiveEvent. cbv zeta.
  cbn [panelPresent catalog emit eventPriceToBeat currentPrice].
  assert (panelHonest (emit CallRenderActiveEvent s)) as H0
    by by apply panelHonest_emit.
  destruct (negb (panelPresent s)); [done|].
  destruct (find isActive (getEvents now (catalog s))) as [a|].
  - match goal with
    | |- panelHonest (startCountdown now ?x) =>
        apply (panelHonest_weaken x);
          [|apply startCountdown_shown|apply startCountdown_extends]
    end.
    set (s1 := match eventPriceToBeat s !! slug a with
               | Some _ => emit CallRenderActiveEvent s
               | None => _
               end).
    assert (panelHonest s1) as H1.
    { subst s1. destruct (eventPriceToBeat s !! slug a) eqn:Hk; [exact H0|].
      destruct (currentPrice s); [|exact H0].
      apply panelHonest_toBeat; [exact Hk|exact H0]. }
    unfold panelHonest. cbn [eventPriceToBeat emit setCountdownText].
    shown_norm. apply Forall_app. split; [exact H1|].
    apply Forall_singleton. subst s1. simpl.
    destruct (eventPriceToBeat s !! slug a) eqn:Hk; simpl; [done|].
    destruct (currentPrice s); simpl; [|done].
    apply lookup_insert_eq.
  - apply panelHonest_emit; [done|].
    match goal with
    | |- panelHonest (setCountdownText None ?x) =>
        apply (panelHonest_weaken x); [|done|done]
    end.
    apply (panelHonest_weaken (emit CallRenderActiveEvent s));
      [done|apply stopCountdown_shown|apply stopCountdown_extends].
Qed.

Lemma capturePriceForActiveEvent_honest now s :
  panelHonest s -> panelHonest (capturePriceForActiveEvent now s).
Proof.
  intros H. unfold capturePriceForActiveEvent.
  destruct (currentPrice s) as [p|]; [|done]. cbv zeta.
  destruct (find isActive (getEvents now (catalog s))) as [a|]; [|done].
  destruct (has (eventPriceToBeat s) (slug a)) eqn:Hh; [done|].
  apply renderActiveEvent_honest, panelHonest_toBeat; auto using has_false.
Qed.

Lemma renderEventsTable_honest now s :
  panelHonest s -> panelHonest (renderEventsTable now s).
Proof.
  intros H. unfold renderEventsTable. cbv zeta. cbn [tablePresent emit].
  assert (panelHonest (emit CallRenderEventsTable s)) as H0
    by by apply panelHonest_emit.
  destruct (negb (tablePresent s)); [done|].
  apply panelHonest_emit; [done|].
  by apply renderActiveEvent_honest, capturePriceForActiveEvent_honest.
Qed.

Lemma step_honest now sig s : panelHonest s -> panelHonest (step now sig s).
Proof.
  intros H. destruct sig as [u|st|cb|cb|h|l|n|l]; cbn [step].
  - unfold handlePriceUpdate. cbv zeta. apply panelHonest_emit; [done|].
    unfold capturePriceForExpiredEvent.
    match goal with
    | |- panelHonest (match currentPrice ?x with _ => _ end) =>
        assert (panelHonest x) as H1
          by (apply capturePriceForActiveEvent_honest; exact H);
        destruct (currentPrice x); [|exact H1]
    end.
    cbv zeta. unfold forEach. apply (forEachFrom_keeps panelHonest); [|done].
    intros e i s' Hs'. unfold captureExpiredStep. destruct i as [|j]; [done|].
    destruct (_ !! j) as [prev|]; [|done].
    destruct (isExpired prev && negb (has (eventLastPrice s') (slug e)));
      [|done].
    destruct (currentPrice s'); [|done].
    by apply renderEventsTable_honest, panelHonest_last.
  - unfold handleStatusChange. by apply panelHonest_emit.
  - unfold onConnectClick, clientCallback, handleStatusChange.
    destruct cb; repeat (apply panelHonest_emit; [done|]); exact H.
  - unfold onDisconnectClick, clientCallback, handleStatusChange.
    destruct cb; repeat (apply panelHonest_emit; [done|]); exact H.
  - case_bool_decide; [|done].
    apply (panelHonest_weaken s);
      [done|apply updateCountdown_shown|apply updateCountdown_extends].
  - unfold loadEventsResolved. apply renderEventsTable_honest.
    apply updateLastPrices_keeps; auto using panelHonest_last.
  - unfold loadEventsRejected. destruct (0 <? n)%nat; [|done].
    apply renderEventsTable_honest.
    apply updateLastPrices_keeps; auto using panelHonest_last.
  - unfold onEventsUpdated. by apply renderEventsTable_honest.
Qed.

(** X9.  The price to beat on the panel is always formatted from the stored
    value: in every state reached from the freshly constructed object, for
    each panel ever written for a slug and for whatever [formatPrice] the
    page uses, the text put into the panel is [formatPrice v], or
    [formatPrice v] followed by [ (current)], where [v] is the value stored
    for that slug now; the only other text is [Loading...].  (What
    [formatPrice] does to [v], rounding included, is not part of the
    statement.) *)
Theorem panel_text_formats_stored_price (formatPrice : Z -> string)
    (panel table : bool) (countdown : option string)
    (sigs : list (Z * Signal)) (k : string) (d : PriceToBeatDisplay) :
  WriteActivePanel (Some (k, d))
    ∈ trace (run sigs (initialPlatform panel table countdown)) ->
  match
    d, eventPriceToBeat (run sigs (initialPlatform panel table countdown)) !! k
  with
  | ShowCaptured _, Some v => priceToBeatText formatPrice d = formatPrice v
  | ShowCurrent _, Some v =>
      priceToBeatText formatPrice d = formatPrice v +:+ " (current)"
  | ShowLoading, _ => priceToBeatText formatPrice d = "Loading..."%string
  | _, None => False
  end.
Proof.
  assert (forall sigs s, panelHonest s -> panelHonest (run sigs s)) as Hrun.
  { clear. intros sigs. induction sigs as [|[now sig] r IH]; intros s H;
      simpl; [done|]. by apply IH, step_honest. }
  pose proof (Hrun sigs (initialPlatform panel table countdown)
                (Forall_nil_2 _)) as H.
  intros Hin. unfold panelHonest in H. rewrite Forall_forall in H.
  assert ((k, d) ∈ shownList
            (trace (run sigs (initialPlatform panel table countdown))))
    as Hkd.
  { unfold shownList. apply list_elem_of_omap.
    by exists (WriteActivePanel (Some (k, d))). }
  specialize (H (k, d) Hkd). simpl in H.
  destruct d as [v|v|]; simpl in H; [by rewrite H..|done].
Qed.

Lemma panel_text_formats_stored_price_witness :
  WriteActivePanel (Some ("btc-a"%string, ShowCaptured 6500000))
    ∈ trace (run [(1000, EventsUpdated [slotA; slotB; slotC]);
                  (2000, PriceTick (tickOf 2000 6500000));
                  (3000, PriceTick (tickOf 3000 7000000))]
               (initialPlatform true true None))
  /\ eventPriceToBeat
       (run [(1000, EventsUpdated [slotA; slotB; slotC]);
             (2000, PriceTick (tickOf 2000 6500000));
             (3000, PriceTick (tickOf 3000 7000000))]
          (initialPlatform true true None)) !! "btc-a"%string
     = Some 6500000
  /\ match
       ShowCaptured 6500000,
       eventPriceToBeat
         (run [(1000, EventsUpdated [slotA; slotB; slotC]);
               (2000, PriceTick (tickOf 2000 6500000));
               (3000, PriceTick (tickOf 3000 7000000))]
            (initialPlatform true true None)) !! "btc-a"%string
     with
     | ShowCaptured _, Some v =>
         priceToBeatText pretty (ShowCaptured 6500000) = pretty v
     | ShowCurrent _, Some v =>
         priceToBeatText pretty (ShowCaptured 6500000)
         = pretty v +:+ " (current)"
     | ShowLoading, _ =>
         priceToBeatText pretty (ShowCaptured 6500000) = "Loading..."%string
     | _, None => False
     end.
Proof.
  assert (WriteActivePanel (Some ("btc-a"%string, ShowCaptured 6500000))
            ∈ trace (run [(1000, EventsUpdated [slotA; slotB; slotC]);
                          (2000, PriceTick (tickOf 2000 6500000));
                          (3000, PriceTick (tickOf 3000 7000000))]
                       (initialPlatform true true None))) as Hin.
  { apply list_elem_of_In. vm_compute. tauto. }
  assert (eventPriceToBeat
            (run [(1000, EventsUpdated [slotA; slotB; slotC]);
                  (2000, PriceTick (tickOf 2000 6500000));
                  (3000, PriceTick (tickOf 3000 7000000))]
               (initialPlatform true true None)) !! "btc-a"%string
          = Some 6500000) as Hs by (vm_compute; reflexivity).
  exact (conj Hin (conj Hs
           (panel_text_formats_stored_price pretty true true None _ "btc-a"
              (ShowCaptured 6500000) Hin))).
Defined.

(** ** The countdown text *)

Lemma padStart_two_digits (n : nat) :
  (n < 100)%nat ->
  padStart 2 (pretty (Z.of_nat n)) = twoDigits (N.of_nat n).
Proof.
  intros Hn.
  assert (forallb (fun k => bool_decide
                      (padStart 2 (pretty (Z.of_nat k))
                       = twoDigits (N.of_nat k))) (seq 0 100) = true) as H
    by (vm_compute; reflexivity).
  rewrite forallb_forall in H.
  specialize (H n). apply bool_decide_eq_true in H; [done|].
  apply in_seq. lia.
Qed.

Lemma padStart_two_digits_Z (z : Z) :
  0 <= z < 100 -> padStart 2 (pretty z) = twoDigits (Z.to_N z).
Proof.
  intros Hz. rewrite <- (Z2Nat.id z) at 1 by lia.
  rewrite padStart_two_digits by lia. f_equal. lia.
Qed.

Lemma twoDigits_inj (n m : N) :
  (n < 100)%N -> (m < 100)%N -> twoDigits n = twoDigits m -> n = m.
Proof.
  intros Hn Hm H. unfold twoDigits in H. injection H as H1 H2.
  apply pretty_N_char_inj in H1;
    [|apply N.Div0.div_lt_upper_bound; lia..].
  apply pretty_N_char_inj in H2; [|apply N.mod_lt; lia..].
  rewrite (N.div_mod n 10), (N.div_mod m 10) by lia. congruence.
Qed.

Lemma formatCountdown_fields (seconds : Z) :
  0 <= seconds < 360000 ->
  formatCountdown seconds
  = twoDigits (Z.to_N (seconds / 3600)) +:+ ":"
    +:+ twoDigits (Z.to_N (seconds mod 3600 / 60)) +:+ ":"
    +:+ twoDigits (Z.to_N (seconds mod 60)).
Proof.
  intros Hs. unfold formatCountdown.
  destruct (Z.leb_spec seconds 0) as [H0|H0].
  - assert (seconds = 0) as -> by lia. reflexivity.
  - cbv zeta. rewrite !Z.rem_mod_nonneg by lia.
    assert (0 <= seconds / 3600 < 100)
      by (split; [apply Z.div_pos; lia|apply Z.div_lt_upper_bound; lia]).
    pose proof (Z.mod_pos_bound seconds 3600 ltac:(lia)).
    pose proof (Z.mod_pos_bound seconds 60 ltac:(lia)).
    assert (0 <= seconds mod 3600 / 60 < 100)
      by (split; [apply Z.div_pos; lia|apply Z.div_lt_upper_bound; lia]).
    by rewrite !padStart_two_digits_Z by lia.
Qed.

(** X10.  For every remaining time below one hundred hours the countdown
    text is eight characters, HH:MM:SS with two decimal digits per field
    (minutes and seconds below sixty), and different remaining times give
    different texts; zero and anything negative read 00:00:00. *)
Theorem formatCountdown_shape_injective (s1 s2 : Z) :
  0 <= s1 < 360000 -> 0 <= s2 < 360000 ->
  formatCountdown s1
  = twoDigits (Z.to_N (s1 / 3600)) +:+ ":"
    +:+ twoDigits (Z.to_N (s1 mod 3600 / 60)) +:+ ":"
    +:+ twoDigits (Z.to_N (s1 mod 60))
  /\ String.length (formatCountdown s1) = 8%nat
  /\ s1 mod 3600 / 60 < 60 /\ s1 mod 60 < 60
  /\ (formatCountdown s1 = formatCountdown s2 -> s1 = s2)
  /\ (forall z, z <= 0 -> formatCountdown z = "00:00:00"%string).
Proof.
  intros H1 H2.
  pose proof (Z.mod_pos_bound s1 3600 ltac:(lia)) as B1.
  pose proof (Z.mod_pos_bound s1 60 ltac:(lia)) as C1.
  pose proof (Z.mod_pos_bound s2 3600 ltac:(lia)) as B2.
  pose proof (Z.mod_pos_bound s2 60 ltac:(lia)) as C2.
  assert (s1 mod 3600 / 60 < 60) as M1 by (apply Z.div_lt_upper_bound; lia).
  assert (s2 mod 3600 / 60 < 60) as M2 by (apply Z.div_lt_upper_bound; lia).
  assert (0 <= s1 mod 3600 / 60) as M1' by (apply Z.div_pos; lia).
  assert (0 <= s2 mod 3600 / 60) as M2' by (apply Z.div_pos; lia).
  assert (0 <= s1 / 3600 < 100) as D1
    by (split; [apply Z.div_pos; lia|apply Z.div_lt_upper_bound; lia]).
  assert (0 <= s2 / 3600 < 100) as D2
    by (split; [apply Z.div_pos; lia|apply Z.div_lt_upper_bound; lia]).
  split; [by apply formatCountdown_fields|].
  split; [by rewrite formatCountdown_fields|].
  split; [done|]. split; [lia|]. split.
  - rewrite !formatCountdown_fields by done. intros H.
    unfold twoDigits in H. simpl in H.
    injection H as Ha Hb Hc Hd He Hf.
    assert (Z.to_N (s1 / 3600) = Z.to_N (s2 / 3600)) as Eh.
    { apply twoDigits_inj; [lia..|]. unfold twoDigits. congruence. }
    assert (Z.to_N (s1 mod 3600 / 60) = Z.to_N (s2 mod 3600 / 60)) as Em.
    { apply twoDigits_inj; [lia..|]. unfold twoDigits. congruence. }
    assert (Z.to_N (s1 mod 60) = Z.to_N (s2 mod 60)) as Es.
    { apply twoDigits_inj; [lia..|]. unfold twoDigits. congruence. }
    assert (s1 / 3600 = s2 / 3600) as Eh' by lia.
    assert (s1 mod 3600 / 60 = s2 mod 3600 / 60) as Em' by lia.
    assert (s1 mod 60 = s2 mod 60) as Es' by lia.
    assert (forall s, s mod 3600 = 60 * (s mod 3600 / 60) + s mod 60) as Hd60.
    { intros s. rewrite (Z.div_mod (s mod 3600) 60) at 1 by lia.
      f_equal.
      apply (Z.mod_unique s 60 (60 * (s / 3600) + s mod 3600 / 60)).
      - left. apply Z.mod_pos_bound. lia.
      - pose proof (Z.div_mod s 3600 ltac:(lia)).
        pose proof (Z.div_mod (s mod 3600) 60 ltac:(lia)). lia. }
    rewrite (Z.div_mod s1 3600), (Z.div_mod s2 3600) by lia.
    rewrite (Hd60 s1), (Hd60 s2). congruence.
  - intros z Hz. unfold formatCountdown.
    destruct (Z.leb_spec z 0); [done|lia].
Qed.

Lemma formatCountdown_shape_injective_witness :
  0 <= 899 < 360000 /\ 0 <= 898 < 360000
  /\ String.length (formatCountdown 899) = 8%nat.
Proof.
  assert (0 <= 899 < 360000) as H1 by lia.
  assert (0 <= 898 < 360000) as H2 by lia.
  exact (conj H1 (conj H2
           (proj1 (proj2 (formatCountdown_shape_injective 899 898 H1 H2))))).
Defined.

(** ** Who writes the connection status *)

Lemma capture_handlers_keep_status now s :
  currentStatus (capturePriceForActiveEvent now s) = currentStatus s
  /\ currentStatus (capturePriceForExpiredEvent now s) = currentStatus s
  /\ currentStatus (updateLastPrices now s) = currentStatus s
  /\ currentStatus (renderEventsTable now s) = currentStatus s
  /\ currentStatus (updateCountdown now s) = currentStatus s.
Proof.
  repeat split.
  - apply (capturePriceForActiveEvent_keeps
             (fun s' => currentStatus s' = currentStatus s)); by intros.
  - apply (capturePriceForExpiredEvent_keeps
             (fun s' => currentStatus s' = currentStatus s)); by intros.
  - apply (updateLastPrices_keeps
             (fun s' => currentStatus s' = currentStatus s)); by intros.
  - apply (renderEventsTable_keeps
             (fun s' => currentStatus s' = currentStatus s)); by intros.
  - apply (updateCountdown_keeps
             (fun s' => currentStatus s' = currentStatus s)); by intros.
Qed.

(** X11.  The connection status is written by the status callback and by
    the two click listeners only: after a status notification it is the
    notified status, after the disconnect click it is the disconnected
    status, and a price tick, a countdown tick, a completed or failed refresh
    and an events update leave it exactly as it was. *)
Theorem connection_status_writers (now : Z) (sig : Signal) (s : Platform) :
  currentStatus (step now sig s)
  = match sig with
    | StatusNotification st => st
    | ConnectClick cb => default (currentStatus s) cb
    | DisconnectClick _ => mkConnectionStatus false None None None
    | _ => currentStatus s
    end.
Proof.
  destruct sig as [u|st|cb|cb|h|l|n|l]; cbn [step].
  - unfold handlePriceUpdate. cbv zeta. cbn [currentStatus emit].
    rewrite (proj1 (proj2 (capture_handlers_keep_status now _))).
    by rewrite (proj1 (capture_handlers_keep_status now _)).
  - done.
  - by destruct cb.
  - by destruct cb.
  - case_bool_decide; [|done].
    apply (capture_handlers_keep_status now s).
  - unfold loadEventsResolved.
    rewrite (proj1 (proj2 (proj2 (proj2
               (capture_handlers_keep_status now _))))).
    by rewrite (proj1 (proj2 (proj2 (capture_handlers_keep_status now _)))).
  - unfold loadEventsRejected. destruct (0 <? n)%nat; [|done].
    rewrite (proj1 (proj2 (proj2 (proj2
               (capture_handlers_keep_status now _))))).
    by rewrite (proj1 (proj2 (proj2 (capture_handlers_keep_status now _)))).
  - unfold onEventsUpdated.
    by rewrite (proj1 (proj2 (proj2 (proj2
                  (capture_handlers_keep_status now _))))).
Qed.

(** * Properties of the API proxy *)

Lemma beforeFirst_app c a q :
  hasChar c a = false -> beforeFirst c (a +:+ String c q) = a.
Proof.
  induction a as [|x a IH]; simpl.
  - intros _. by rewrite Ascii.eqb_refl.
  - intros H. apply orb_false_iff in H as [Hx Ha]. rewrite Hx.
    by rewrite IH.
Qed.

Lemma beforeFirst_none c a : hasChar c a = false -> beforeFirst c a = a.
Proof.
  induction a as [|x a IH]; simpl; [done|].
  intros H. apply orb_false_iff in H as [Hx Ha]. rewrite Hx. by rewrite IH.
Qed.

Lemma nonEmpty_app_r a b : nonEmpty b = true -> nonEmpty (a +:+ b) = true.
Proof. by destruct a. Qed.

Lemma paramsToString_nonEmpty kv l :
  nonEmpty (paramsToString (kv :: l)) = true.
Proof.
  unfold paramsToString. simpl.
  assert (nonEmpty (formEncode kv.1 +:+ "=" +:+ formEncode kv.2) = true) as H
    by by apply nonEmpty_app_r.
  destruct (map _ l); [done|].
  destruct (formEncode kv.1 +:+ "=" +:+ formEncode kv.2); done.
Qed.

Lemma fullUrlOf_cases req :
  fullUrlOf req
  = match forwardedParams (req_query req) with
    | [] => gammaApi +:+ apiPathOf req
    | l => gammaApi +:+ apiPathOf req +:+ "?" +:+ paramsToString l
    end.
Proof.
  unfold fullUrlOf. cbv zeta.
  destruct (forwardedParams (req_query req)) as [|kv l]; [done|].
  by rewrite paramsToString_nonEmpty.
Qed.

Lemma pathFromUrl_prefixed p :
  hasChar "?" p = false ->
  pathFromUrl (Some ("/api/proxy/" +:+ p)) = p.
Proof.
  intros Hp. unfold pathFromUrl. cbv zeta.
  rewrite beforeFirst_none by exact Hp. reflexivity.
Qed.

Lemma pathFromUrl_prefixed_query p q :
  hasChar "?" p = false ->
  pathFromUrl (Some ("/api/proxy/" +:+ p +:+ "?" +:+ q)) = p.
Proof.
  intros Hp. unfold pathFromUrl. cbv zeta.
  assert ("/api/proxy/" +:+ p +:+ "?" +:+ q
          = ("/api/proxy/" +:+ p) +:+ String "?" q) as -> by reflexivity.
  rewrite beforeFirst_app by exact Hp. reflexivity.
Qed.

(** X12.  The path the rewrite rule puts after [/api/proxy/] is the path
    requested upstream: for a non-empty path without a question mark, with or
    without a query string in the URL, and whatever [req.query] holds (a
    [path] parameter included), the handler fetches the base URL followed by
    exactly that path, followed by [?] and the serialized forwarded
    parameters when there are any and by nothing otherwise, and answers with
    what the upstream reply maps to. *)
Theorem proxy_forwards_url_path (p q : string)
    (query : list (string * QueryValue)) (method : option string)
    (fetch : string -> string -> Thrown + UpstreamResponse) :
  hasChar "?" p = false -> nonEmpty p = true ->
  let req := mkProxyRequest (Some ("/api/proxy/" +:+ p +:+ "?" +:+ q))
               query method in
  let req' := mkProxyRequest (Some ("/api/proxy/" +:+ p)) query method in
  let target :=
    match forwardedParams query with
    | [] => gammaApi +:+ p
    | l => gammaApi +:+ p +:+ "?" +:+ paramsToString l
    end in
  handler fetch req = replyOf target (fetch target (methodOf req))
  /\ handler fetch req' = replyOf target (fetch target (methodOf req')).
Proof.
  intros Hq Hp req req' target.
  assert (apiPathOf req = p) as Ha.
  { unfold apiPathOf. cbv zeta. cbn [req_url req].
    rewrite pathFromUrl_prefixed_query by done. by rewrite Hp. }
  assert (apiPathOf req' = p) as Ha'.
  { unfold apiPathOf. cbv zeta. cbn [req_url req'].
    rewrite pathFromUrl_prefixed by done. by rewrite Hp. }
  assert (fullUrlOf req = target) as Hu
    by (rewrite fullUrlOf_cases, Ha; reflexivity).
  assert (fullUrlOf req' = target) as Hu'
    by (rewrite fullUrlOf_cases, Ha'; reflexivity).
  unfold handler. cbv zeta. by rewrite Ha, Ha', Hu, Hu', Hp.
Qed.

Lemma proxy_forwards_url_path_witness :
  handler (fun _ _ => inl ThrownOther)
    (mkProxyRequest (Some ("/api/proxy/" +:+ "events/slug/x" +:+ "?" +:+ "limit=1"))
       [("limit"%string, QString "1"); ("path"%string, QString "zzz")] None)
  = mkReply 500
      (ProxyFailureBody "Unknown error"
         "https://gamma-api.polymarket.com/events/slug/x?limit=1")
      false.
Proof.
  exact (proj1 (proxy_forwards_url_path "events/slug/x" "limit=1"
                  [("limit"%string, QString "1");
                   ("path"%string, QString "zzz")] None
                  (fun _ _ => inl ThrownOther) eq_refl eq_refl)).
Defined.

Lemma startsWith_shorter a b s :
  startsWith s (a +:+ b) = true -> startsWith s a = true.
Proof.
  revert s. induction a as [|x a IH]; intros s; [done|].
  change (String x a +:+ b) with (String x (a +:+ b)).
  destruct s as [|y s]; [done|]. simpl.
  intros H. apply andb_prop in H as [-> H]. by apply IH.
Qed.

Lemma pathFromUrl_empty url :
  (url = None
   \/ exists u, url = Some u
        /\ (startsWith (beforeFirst "?" u) "/api/proxy" = false
            \/ beforeFirst "?" u = "/api/proxy"%string
            \/ beforeFirst "?" u = "/api/proxy/"%string)) ->
  pathFromUrl url = ""%string.
Proof.
  intros [->|(u & -> & H)]; [done|].
  unfold pathFromUrl. destruct (nonEmpty u); [|done]. cbv zeta.
  destruct H as [H|[->| ->]]; [|reflexivity..].
  rewrite H.
  destruct (startsWith (beforeFirst "?" u) "/api/proxy/") eqn:E; [|done].
  apply (startsWith_shorter "/api/proxy" "/") in E. congruence.
Qed.

(** X13.  Without an API path the handler answers 400 and contacts nobody:
    when the URL is absent, does not start with [/api/proxy], or is exactly
    [/api/proxy] or [/api/proxy/] (before any query string), and the [path]
    query parameter is absent, empty or an empty array, the reply is the 400
    reply with the request's URL and query, without CORS headers, whatever
    the upstream would have answered. *)
Theorem proxy_no_path_is_400 (req : ProxyRequest)
    (fetch : string -> string -> Thrown + UpstreamResponse) :
  (req_url req = None
   \/ exists u, req_url req = Some u
        /\ (startsWith (beforeFirst "?" u) "/api/proxy" = false
            \/ beforeFirst "?" u = "/api/proxy"%string
            \/ beforeFirst "?" u = "/api/proxy/"%string)) ->
  (queryGet "path" (req_query req) = None
   \/ queryGet "path" (req_query req) = Some (QString "")
   \/ queryGet "path" (req_query req) = Some (QArray [])) ->
  handler fetch req
  = mkReply 400 (NoPathBody (req_url req) (req_query req)) false.
Proof.
  intros Hu Hq. unfold handler. cbv zeta.
  assert (apiPathOf req = ""%string) as ->; [|done].
  unfold apiPathOf. cbv zeta. rewrite (pathFromUrl_empty _ Hu).
  cbn [nonEmpty]. by destruct Hq as [->|[->| ->]].
Qed.

Lemma proxy_no_path_is_400_witness :
  handler (fun _ _ => inr (mkUpstreamResponse 200 (Some "[]") (inr "[]"%string)))
    (mkProxyRequest (Some "/api/proxy/?limit=1")
       [("limit"%string, QString "1")] (Some "GET"%string))
  = mkReply 400
      (NoPathBody (Some "/api/proxy/?limit=1"%string)
         [("limit"%string, QString "1")]) false.
Proof.
  exact (proxy_no_path_is_400
           (mkProxyRequest (Some "/api/proxy/?limit=1")
              [("limit"%string, QString "1")] (Some "GET"%string))
           (fun _ _ => inr (mkUpstreamResponse 200 (Some "[]")
                              (inr "[]"%string)))
           (or_intror (ex_intro _ "/api/proxy/?limit=1"%string
              (conj eq_refl (or_intror (or_intror eq_refl)))))
           (or_introl eq_refl)).
Defined.

(** X14.  What is forwarded of the query: a pair (k, v) is sent upstream
    exactly when k is not [path] and [req.query] has k either as the
    non-empty string v or as an array containing v.  So a parameter named
    [path] is never forwarded, an empty scalar is dropped, and every element
    of an array is kept, empty ones included. *)
Theorem forwarded_params_spec (q : list (string * QueryValue))
    (k v : string) :
  In (k, v) (forwardedParams q)
  <-> k <> "path"%string
      /\ exists value, In (k, value) q
           /\ match value with
              | QString s => s = v /\ v <> ""%string
              | QArray vs => In v vs
              end.
Proof.
  unfold forwardedParams. rewrite in_flat_map. split.
  - intros ([k' value] & Hin & H). simpl in H.
    destruct (String.eqb_spec k' "path") as [E|E]; simpl in H; [done|].
    destruct value as [s|vs]; simpl in H.
    + destruct s as [|c s]; simpl in H; [done|].
      destruct H as [[= <- <-]|[]]. split; [done|].
      exists (QString (String c s)). by repeat split.
    + apply in_map_iff in H as (v' & [= <- <-] & Hv). split; [done|].
      by exists (QArray vs).
  - intros (Hk & value & Hin & H). exists (k, value). split; [done|]. simpl.
    destruct (String.eqb_spec k "path") as [E|E]; [done|]. simpl.
    destruct value as [s|vs]; simpl.
    + destruct H as [-> Hv]. destruct v; [done|]. simpl. by left.
    + apply in_map_iff. by exists v.
Qed.

Lemma forwarded_params_spec_witness :
  In ("tag"%string, ""%string)
    (forwardedParams [("path"%string, QString "events");
                      ("e"%string, QString "");
                      ("tag"%string, QArray ["a"%string; ""%string])]).
Proof.
  apply (proj2 (forwarded_params_spec _ "tag" "")).
  split; [discriminate|].
  exists (QArray ["a"%string; ""%string]). split; simpl; tauto.
Defined.

(** X15.  How the handler answers: the reply is 200 exactly when the CORS
    headers are set, exactly when the body is the upstream JSON, which
    requires an upstream status from 200 to 299 and a body that parses; an
    upstream status outside that range is passed on as the reply status with
    the upstream text (or [Unknown error]) as details; every other reply is
    400 or 500. *)
Theorem proxy_reply_classes
    (fetch : string -> string -> Thrown + UpstreamResponse)
    (req : ProxyRequest) :
  let r := handler fetch req in
  (rep_status r = 200 <-> rep_cors r = true)
  /\ (rep_cors r = true <->
      exists response data,
        fetch (fullUrlOf req) (methodOf req) = inr response
        /\ 200 <= up_status response <= 299
        /\ up_json response = inr data
        /\ r = mkReply 200 (DataBody data) true)
  /\ (forall response,
        nonEmpty (apiPathOf req) = true ->
        fetch (fullUrlOf req) (methodOf req) = inr response ->
        ~ (200 <= up_status response <= 299) ->
        r = mkReply (up_status response)
              (UpstreamErrorBody (up_status response)
                 (default "Unknown error"%string (up_text response)))
              false)
  /\ (rep_cors r = false ->
      rep_status r = 400 \/ rep_status r = 500
      \/ exists response,
           fetch (fullUrlOf req) (methodOf req) = inr response
           /\ rep_status r = up_status response
           /\ ~ (200 <= up_status response <= 299)).
Proof.
  intros r. subst r. unfold handler, replyOf, up_ok. cbv zeta.
  destruct (nonEmpty (apiPathOf req)); cbn [negb].
  2: { repeat split; try done; try (intros; by left).
       intros (? & ? & ? & ? & ? & [=]). }
  destruct (fetch (fullUrlOf req) (methodOf req)) as [t|response].
  { repeat split; try done; try (intros; right; by left).
    intros (? & ? & [=] & _). }
  destruct (Z.leb_spec 200 (up_status response)) as [H1|H1];
    destruct (Z.leb_spec (up_status response) 299) as [H2|H2]; cbn [andb negb].
  - destruct (up_json response) as [t|data] eqn:Hj.
    + repeat split; try done; try (intros; right; by left).
      * intros (? & ? & [= <-] & _ & Hd & _). congruence.
      * intros response' _ [= <-] Hn. lia.
    + repeat split; try done.
      * intros _. exists response, data. by repeat split.
      * intros response' _ [= <-] Hn. lia.
  - repeat split; try done; cbn [rep_status rep_cors]; try (intros; lia).
    + intros (? & ? & [= <-] & ? & _). lia.
    + intros response' _ [= <-] _. done.
    + intros _. right; right. exists response. repeat split; try done. lia.
  - repeat split; try done; cbn [rep_status rep_cors]; try (intros; lia).
    + intros (? & ? & [= <-] & ? & _). lia.
    + intros response' _ [= <-] _. done.
    + intros _. right; right. exists response. repeat split; try done. lia.
  - lia.
Qed.

Lemma proxy_reply_classes_witness :
  let fetch := fun (_ _ : string) =>
    inr (mkUpstreamResponse 404 None (inl ThrownOther)) : Thrown + UpstreamResponse in
  let req := mkProxyRequest (Some "/api/proxy/events"%string) [] None in
  handler fetch req = mkReply 404 (UpstreamErrorBody 404 "Unknown error") false.
Proof.
  intros fetch req.
  exact (proj1 (proj2 (proj2 (proxy_reply_classes fetch req)))
           (mkUpstreamResponse 404 None (inl ThrownOther))
           eq_refl eq_refl ltac:(cbn; lia)).
Defined.
